(** * The reverse-tunnel client of [tunnel/tunnel.go]

    A shallow embedding of [tunnel.Create] and of the goroutines it starts.

    [Create] talks to the outside world through library calls only
    ([net.Dial], [http.ReadResponse], [ssh.NewClientConn], [client.Listen],
    [ln.Accept], [br.ReadLine], [io.Copy], the caller's channel).  What these
    calls answer is not decided by the program, so the answers are inputs of
    the model:

    - the sequential prefix of [Create] (lines 49-122, no goroutine is
      running yet) is a function of a [World], a record holding the answer of
      each library call;
    - from line 123 on several goroutines run at once; that part is a
      transition function [step] whose input says which goroutine moves and
      what the library call it was blocked in has answered.

    Everything the program does to the outside world is recorded in a trace
    of [Event]s, tagged with the goroutine that did it. *)

From Stdlib Require Import ZArith String Ascii List DecimalString Lia.
From stdpp Require Import base tactics option list strings.

Local Open Scope Z_scope.

(** ** Go values shared by the packages below *)

(** A Go [error] value that is not [nil]: the sentinel [io.EOF], or any other
    error, known by its message. *)
Inductive error : Type :=
  | EOF
  | Err (msg : string).

(** [err.Error()], as [%v] prints it. *)
Definition Error (e : error) : string :=
  match e with
  | EOF => "EOF"
  | Err msg => msg
  end.

(** [err == io.EOF] *)
Definition is_EOF (e : error) : bool :=
  match e with
  | EOF => true
  | Err _ => false
  end.

(** The pair [(v, err)] a Go call returns: [err == nil] and a value, or an
    error. *)
Inductive result (A : Type) : Type :=
  | Ok (a : A)
  | Fail (e : error).
Arguments Ok {A} a.
Arguments Fail {A} e.

(** A [net.Conn], known by the descriptor the world hands out. *)
Definition Conn : Type := nat.

(** What a deferred [Close] (or the relay's) is called on. *)
Inductive Resource : Type :=
  | RespBody              (* resp.Body,  line 95  *)
  | SshClient             (* client,     line 110 *)
  | SshSession            (* sess,       line 117 *)
  | RemoteListener        (* ln,         line 143 *)
  | NetConn (c : Conn).   (* in / out,   lines 159 and 167 *)

(** ** Package [strings] and [net/url] *)

Module strings.

(** [strings.LastIndexByte]; [None] stands for Go's [-1]. *)
Fixpoint LastIndexByte (s : string) (c : ascii) : option nat :=
  match s with
  | EmptyString => None
  | String a s' =>
      match LastIndexByte s' c with
      | Some i => Some (S i)
      | None => if Ascii.eqb a c then Some 0%nat else None
      end
  end.

Definition HasPrefix (s prefix : string) : bool := String.prefix prefix s.

Fixpoint HasSuffix (s suffix : string) : bool :=
  String.eqb s suffix ||
  match s with
  | EmptyString => false
  | String _ s' => HasSuffix s' suffix
  end.

End strings.

Module url.

(** [url.Userinfo]: [Password()] returns [(password, passwordSet)]. *)
Record Userinfo : Type := {
  username : string;
  password : string;
  passwordSet : bool
}.

(** The fields of [url.URL] that [Create] reads or sets. [Host] is the
    authority as written, [host] or [host:port]. *)
Record URL : Type := {
  User : option Userinfo;
  Host : string;
  Path : string
}.

Definition is_digit (b : ascii) : bool :=
  (Ascii.leb "0" b && Ascii.leb b "9")%char.

Fixpoint all_digits (s : string) : bool :=
  match s with
  | EmptyString => true
  | String b s' => is_digit b && all_digits s'
  end.

(** [validOptionalPort]: the empty string, or a colon and digits only. *)
Definition validOptionalPort (port : string) : bool :=
  match port with
  | EmptyString => true
  | String b rest => Ascii.eqb b ":" && all_digits rest
  end.

(** [host[colon:]], [host[:colon]] and [host[1 : len(host)-1]] are Go
    slices of a string. *)
Definition slice_from (s : string) (i : nat) : string :=
  String.substring i (String.length s - i) s.
Definition slice_to (s : string) (i : nat) : string :=
  String.substring 0 i s.

(** [splitHostPort] of net/url: a valid port after the last colon is split
    off, then one pair of square brackets is removed from the host. *)
Definition splitHostPort (hostPort : string) : string * string :=
  let '(host, port) :=
    match strings.LastIndexByte hostPort ":" with
    | Some colon =>
        if validOptionalPort (slice_from hostPort colon)
        then (slice_to hostPort colon, slice_from hostPort (S colon))
        else (hostPort, EmptyString)
    | None => (hostPort, EmptyString)
    end in
  if strings.HasPrefix host "[" && strings.HasSuffix host "]"
  then (String.substring 1 (String.length host - 2) host, port)
  else (host, port).

(** [Hostname] method of [URL] *)
Definition Hostname (u : URL) : string := fst (splitHostPort (Host u)).

(** [Port] method of [URL] *)
Definition Port (u : URL) : string := snd (splitHostPort (Host u)).

End url.

(** ** Package [net/http] *)

Module http.

(** The [http.Request] that [Create] builds. [Authorization] holds the
    arguments of [SetBasicAuth] when it was called: the header it sets is
    their Basic encoding. *)
Record Request : Type := {
  Method : string;
  URL : url.URL;
  Host : string;
  Authorization : option (string * string)
}.

Definition SetBasicAuth (r : Request) (username password : string) : Request :=
  {| Method := Method r; URL := URL r; Host := Host r;
     Authorization := Some (username, password) |}.

(** The status line of an [http.Response]. *)
Record Response : Type := {
  StatusCode : Z;
  Status : string
}.

End http.

(** ** What the program does to the outside world *)

Inductive Event : Type :=
  | Print (s : string)                        (* fmt.Print, fmt.Printf *)
  | LogPrint (s : string)                     (* log.Print, log.Printf *)
  | LogError (s : string)                     (* log.Errorf *)
  | Fatal (s : string)                        (* log.Fatalf: message, then os.Exit(1) *)
  | NetDial (addr : string)                   (* net.Dial("tcp", addr) *)
  | WriteRequest (tcp : Conn) (r : http.Request)  (* connReq.Write(tcp) *)
  | Handshake (tcp : Conn) (addr : string)    (* ssh.NewClientConn(tcp, addr, config) *)
  | Listen (addr : string)                    (* client.Listen("tcp", addr) *)
  | GoHook (c : Conn)                         (* go c.InBoundConnectionHook(in) *)
  | Copied (data : string)                    (* bytes io.Copy moved from src to dst *)
  | Send (code : Z)                           (* c.Channel <- code, once received *)
  | Close (r : Resource).                     (* r.Close() *)

(** ** A writer of events that [os.Exit] can cut short *)

Inductive exit (A : Type) : Type :=
  | Return (a : A)
  | Exited.        (* os.Exit(1): nothing after it runs, no deferred call either *)
Arguments Return {A} a.
Arguments Exited {A}.

Definition M (A : Type) : Type := list Event * exit A.

#[global] Instance M_ret : MRet M := λ A a, ([], Return a).

#[global] Instance M_bind : MBind M := λ A B f m,
  match m with
  | (t, Return a) => let '(t', r) := f a in (t ++ t', r)
  | (t, Exited) => (t, Exited)
  end.

Definition emit (e : Event) : M unit := ([e], Return tt).

(** [log.Fatalf(format, err)] with a format that ends in [%v]. *)
Definition Fatalf {A} (prefix : string) (e : error) : M A :=
  ([Fatal (prefix +:+ Error e)], Exited).

(** [fmt.Sprintf("%s:%d", host, port)] *)
Definition host_port (host : string) (port : Z) : string :=
  host +:+ ":" +:+ NilZero.string_of_int (Z.to_int port).

(** ** Package [golang.org/x/crypto/ssh], as far as [Create] uses it *)

Module ssh.

(** An [ssh.PublicKey], known by its wire encoding. *)
Record PublicKey : Type := { Marshal : string }.

Inductive AuthMethod : Type :=
  | Password (secret : string).

(** [ssh.ClientConfig]. A callback returns [nil] or an error; the banner
    callback may also print. *)
Record ClientConfig : Type := {
  User : string;
  Auth : list AuthMethod;
  HostKeyCallback : PublicKey → option error;
  BannerCallback : string → M (option error)
}.

(** [ssh.FixedHostKey(key)]: the callback that accepts exactly [key]. *)
Definition FixedHostKey (key : PublicKey) : PublicKey → option error :=
  λ presented,
    if String.eqb (Marshal presented) (Marshal key)
    then None
    else Some (Err "ssh: host key mismatch").

(** What the machine at the other end of a connection does during the
    handshake: the key exchange breaks or presents a host key, then a banner
    may be sent, then authentication is accepted or refused. *)
Record Peer : Type := {
  kex : result PublicKey;
  banner : option string;
  auth : option error
}.

(** An established [ssh.Client], over connection [conn]. *)
Record Client : Type := { conn : Conn }.

Definition handshake_failed (e : error) : error :=
  Err ("ssh: handshake failed: " +:+ Error e).

(** [ssh.NewClientConn(tcp, addr, config)] followed by [ssh.NewClient]: the
    host key the peer presents goes through [config.HostKeyCallback], a banner
    through [config.BannerCallback]; any failure closes [tcp] and is
    returned. *)
Definition NewClientConn (p : Peer) (tcp : Conn) (addr : string)
    (config : ClientConfig) : M (result Client) :=
  emit (Handshake tcp addr);;
  let failed (e : error) : M (result Client) :=
    emit (Close (NetConn tcp));; mret (Fail (handshake_failed e)) in
  match kex p with
  | Fail e => failed e
  | Ok key =>
      match HostKeyCallback config key with
      | Some e => failed e
      | None =>
          berr ← match banner p with
                 | Some message => BannerCallback config message
                 | None => mret None
                 end;
          match berr with
          | Some e => failed e
          | None =>
              match auth p with
              | Some e => failed e
              | None => mret (Ok {| conn := tcp |})
              end
          end
      end
  end.

(** [ssh.Dial("tcp", addr, config)]: [net.Dial], then the handshake; the
    error of either is returned. *)
Definition Dial (net_Dial : string → result Conn) (peer : Conn → Peer)
    (addr : string) (config : ClientConfig) : M (result Client) :=
  emit (NetDial addr);;
  match net_Dial addr with
  | Fail e => mret (Fail e)
  | Ok tcp => NewClientConn (peer tcp) tcp addr config
  end.

End ssh.

(** ** Package [tunnel] *)

(** The answers of the library calls of lines 49-122. *)
Record World : Type := {
  ParseAuthorizedKey : string → result ssh.PublicKey;
  Getenv : string → string;
  url_Parse : string → result url.URL;
  net_Dial : string → result Conn;
  http_ReadResponse : Conn → http.Request → result http.Response;
  peer : Conn → ssh.Peer;
  NewSession : result unit;
  StdoutPipe : result unit
}.

(** [tunnel.Configuration]. [InBoundConnectionHook] is [None] for a nil
    func. The field [Channel] is the caller's channel: what is sent on it is
    the [Send] events of the trace. *)
Record Configuration : Type := {
  Protocol : string;
  Subdomain : string;
  Domain : string;
  Port : Z;
  Host : string;
  User : string;
  RemoteHost : string;
  RemotePort : Z;
  TargetHost : string;
  TargetPort : Z;
  InBoundConnectionHook : option (Conn → option error);
  HideBanner : bool
}.

(** [const ( _ = iota; EventReconnect )] *)
Definition EventReconnect : Z := 1.

Definition hostBytes : string :=
  "ssh-rsa AAAAB3NzaC1yc2EAAAADAQABAAACAQDoSLknvlFrFzroOlh1cqvcIFelHO+Wvj1UZ/p3J9bgsJGiKfh3DmBqEw1DOEwpHJz4zuV375TyjGuHuGZ4I4xztnwauhFplfEvriVHQkIDs6UnGwJVr15XUQX04r0i6mLbJs5KqIZTZuZ9ZGOj7ZWnaA7C07nPHGrERKV2Fm67rPvT6/qFikdWUbCt7KshbzdwwfxUohmv+NI7vw2X6vPU8pDaNEY7vS3YgwD/WlvQx+WDF2+iwLVW8OWWjFuQso6Eg1BSLygfPNhAHoiOWjDkijc8U9LYkUn7qsDCnvJxCoTTNmdECukeHfzrUjTSw72KZoM5KCRV78Wrctai1Qn6yRQz9BOSguxewLfzHtnT43/MLdwFXirJ/Ajquve2NAtYmyGCq5HcvpDAyi7lQ0nFBnrWv5zU3YxrISIpjovVyJjfPx8SCRlYZwVeUq6N2yAxCzJxbElZPtaTSoXBIFtoas2NXnCWPgenBa/2bbLQqfgbN8VQ9RaUISKNuYDIn4+eO72+RxF9THzZeV17pnhTVK88XU4asHot1gXwAt4vEhSjdUBC9KUIkfukI6F4JFxtvuO96octRahdV1Qg0vF+D0+SPy2HxqjgZWgPE2Xh/NmuIXwbE0wkymR2wrgj8Hd4C92keo2NBRh9dD7D2negnVYaYsC+3k/si5HNuCHnHQ== tunnel@labstack.com".

(** A Go call whose error is fatal: the value, or [log.Fatalf] with the
    error. *)
Definition or_Fatalf {A} (r : result A) (prefix : string) : M A :=
  match r with
  | Ok a => mret a
  | Fail e => Fatalf prefix e
  end.

(** Lines 53-65: the client configuration, with the pinned host key. *)
Definition client_config (c : Configuration) (hostKey : ssh.PublicKey)
    : ssh.ClientConfig :=
  {| ssh.User := User c;
     ssh.Auth := [ssh.Password "password"];
     ssh.HostKeyCallback := ssh.FixedHostKey hostKey;
     ssh.BannerCallback := λ message,
       (if negb (HideBanner c) then emit (Print message) else mret tt);;
       mret None |}.

(** Lines 71-101, the branch taken when [http_proxy] is set. Each [err] of
    this block is declared in the block and is fatal; the block leaves the
    [err] of [Create] as it was. *)
Definition connect_via_proxy (c : Configuration) (w : World)
    (config : ssh.ClientConfig) (proxy : string) : M ssh.Client :=
  proxyURL ← or_Fatalf (url_Parse w proxy) "cannot open new session: ";
  emit (NetDial (url.Hostname proxyURL));;
  tcp ← or_Fatalf (net_Dial w (url.Hostname proxyURL)) "cannot open new session: ";
  let connReq :=
    {| http.Method := "CONNECT";
       http.URL := {| url.User := None; url.Host := ""; url.Path := Host c |};
       http.Host := Host c;
       http.Authorization := None |} in
  let connReq :=
    match url.User proxyURL with
    | Some u =>
        if url.passwordSet u
        then http.SetBasicAuth connReq (url.username u) (url.password u)
        else connReq
    | None => connReq
    end in
  emit (WriteRequest tcp connReq);;
  _ ← or_Fatalf (http_ReadResponse w tcp connReq) "cannot open new session: ";
  r ← ssh.NewClientConn (peer w tcp) tcp (Host c) config;
  or_Fatalf r "cannot open new session: ".

(** Where [Create] stands when its sequential part is over. *)
Inductive Setup : Type :=
  | ConnectFailed (deferred : list Resource)
      (* line 107, about to send on c.Channel *)
  | Established (deferred : list Resource) (pipe : bool).
      (* line 123, about to start the reader; [pipe] is false when
         StdoutPipe failed and r is nil *)
  (* [deferred] holds the pending deferred calls, last registered first *)

(** Lines 49-122 of [Create]. *)
Definition Create_setup (c : Configuration) (w : World) : M Setup :=
  hostKey ← or_Fatalf (ParseAuthorizedKey w hostBytes) "failed to parse host key: ";
  let config := client_config c hostKey in
  let proxy := Getenv w "http_proxy" in
  '(deferred, err) ←
    (if negb (String.eqb proxy "")
     then connect_via_proxy c w config proxy;; mret ([RespBody], None)
     else r ← ssh.Dial (net_Dial w) (peer w) (Host c) config;
          mret ([], match r with Ok _ => None | Fail e => Some e end));
  match err with
  | Some e =>
      emit (LogError ("failed to connect: " +:+ Error e));;
      mret (ConnectFailed deferred)
  | None =>
      or_Fatalf (NewSession w) "failed to create session: ";;
      pipe ← match StdoutPipe w with
             | Ok _ => mret true
             | Fail e => emit (LogPrint (Error e));; mret false
             end;
      mret (Established (SshSession :: SshClient :: deferred) pipe)
  end.

(** ** The goroutines *)

(** The two [cp] goroutines of a relay, by the connection they write to. *)
Inductive Dir : Type :=
  | ToIn      (* go cp(in, out): target to inbound *)
  | ToOut.    (* go cp(out, in): inbound to target *)

Inductive Tid : Type :=
  | TMain                        (* the goroutine that called Create *)
  | TReader                      (* go func() of line 123 *)
  | TRelay (i : nat)             (* go func(in) of line 158, for the i-th relayed connection *)
  | TCopy (i : nat) (d : Dir).   (* its two cp goroutines *)

(** Where the goroutine running [Create] stands. *)
Inductive MainPc : Type :=
  | MSetup       (* lines 49-122 *)
  | MSend        (* line 107, blocked in c.Channel <- EventReconnect *)
  | MListen      (* line 139, in client.Listen *)
  | MAccept      (* line 147, in ln.Accept *)
  | MReturned.   (* Create has returned to its caller *)

(** Where the reader goroutine of lines 123-136 stands. *)
Inductive ReaderPc : Type :=
  | RdNone                 (* never started *)
  | RdRead (pipe : bool)   (* line 125, in br.ReadLine; pipe is false when r is nil *)
  | RdSend                 (* line 128, blocked in c.Channel <- EventReconnect *)
  | RdDone.                (* returned *)

(** Where a relay goroutine of lines 158-183 stands. *)
Inductive RelayPc : Type :=
  | RlDial                 (* line 162, in net.Dial *)
  | RlWait (out : Conn)    (* line 179, in <-errCh *)
  | RlDone.                (* returned, deferred calls done *)

(** One relay goroutine with what it owns: the inbound connection, the
    buffered channel [errCh], and its two [cp] goroutines (true while their
    [io.Copy] runs). *)
Record Relay : Type := {
  rl_in : Conn;
  rl_pc : RelayPc;
  errCh : list (option error);
  cp_to_in : bool;
  cp_to_out : bool
}.

Inductive Proc : Type :=
  | Running
  | Exit1       (* os.Exit(1), from log.Fatalf *)
  | Panicked.   (* a goroutine panicked *)

Record State : Type := {
  proc : Proc;
  main : MainPc;
  deferred : list Resource;     (* deferred calls of Create, last registered first *)
  reader : ReaderPc;
  relays : list Relay;          (* in the order they were started *)
  trace : list (Tid * Event)
}.

(** What a relay (or one of its [cp] goroutines) is answered. *)
Inductive RelayInput : Type :=
  | DialResult (r : result Conn)                (* net.Dial returned *)
  | CopyData (d : Dir) (data : string)          (* io.Copy of d moved some bytes *)
  | CopyResult (d : Dir) (err : option error)   (* io.Copy of d returned err *)
  | ErrReceived.                                (* <-errCh is scheduled *)

(** One move of the system: who is answered, and what. *)
Inductive Input : Type :=
  | Received (t : Tid)                  (* the value t is sending on c.Channel is taken *)
  | ListenResult (r : result unit)      (* client.Listen returned *)
  | AcceptResult (r : result Conn)      (* ln.Accept returned *)
  | ReadLineResult (r : result string)  (* br.ReadLine returned (line, _, err) *)
  | RelayStep (i : nat) (a : RelayInput).

Definition set_proc (p : Proc) (s : State) : State :=
  {| proc := p; main := main s; deferred := deferred s; reader := reader s;
     relays := relays s; trace := trace s |}.
Definition set_main (m : MainPc) (s : State) : State :=
  {| proc := proc s; main := m; deferred := deferred s; reader := reader s;
     relays := relays s; trace := trace s |}.
Definition set_deferred (d : list Resource) (s : State) : State :=
  {| proc := proc s; main := main s; deferred := d; reader := reader s;
     relays := relays s; trace := trace s |}.
Definition set_reader (r : ReaderPc) (s : State) : State :=
  {| proc := proc s; main := main s; deferred := deferred s; reader := r;
     relays := relays s; trace := trace s |}.
Definition set_relays (l : list Relay) (s : State) : State :=
  {| proc := proc s; main := main s; deferred := deferred s; reader := reader s;
     relays := l; trace := trace s |}.

(** Goroutine [t] does [es], in this order. *)
Definition does (t : Tid) (es : list Event) (s : State) : State :=
  {| proc := proc s; main := main s; deferred := deferred s; reader := reader s;
     relays := relays s; trace := trace s ++ map (pair t) es |}.

(** [log.Fatalf(prefix %v, e)] in goroutine [t]. *)
Definition fatalf (t : Tid) (prefix : string) (e : error) (s : State) : State :=
  set_proc Exit1 (does t [Fatal (prefix +:+ Error e)] s).

(** [return] in [Create]: the deferred calls run, last registered first. *)
Definition return_Create (s : State) : State :=
  set_main MReturned (set_deferred [] (does TMain (map Close (deferred s)) s)).

(** The relay goroutine started at line 158 for [in]. *)
Definition new_relay (inb : Conn) : Relay :=
  {| rl_in := inb; rl_pc := RlDial; errCh := []; cp_to_in := false;
     cp_to_out := false |}.

(** Lines 105-109 and 138-157: the goroutine running [Create]. *)
Definition main_step (c : Configuration) (s : State) (i : Input) : State :=
  match main s, i with
  | MSend, Received TMain =>
      return_Create (does TMain [Send EventReconnect] s)
  | MListen, ListenResult r =>
      let s := does TMain [Listen (host_port (RemoteHost c) (RemotePort c))] s in
      match r with
      | Fail e => fatalf TMain "failed to listen on remote host: " e s
      | Ok _ => set_main MAccept (set_deferred (RemoteListener :: deferred s) s)
      end
  | MAccept, AcceptResult (Fail e) =>
      return_Create
        (does TMain [LogPrint ("failed to accept connection: " +:+ Error e)] s)
  | MAccept, AcceptResult (Ok inb) =>
      match InBoundConnectionHook c with
      | Some _ => does TMain [GoHook inb] s
      | None => set_relays (relays s ++ [new_relay inb]) s
      end
  | _, _ => s
  end.

(** Lines 123-136: the reader of the control channel. With a nil reader the
    first [ReadLine] panics, whatever the input says was read. *)
Definition reader_step (s : State) (i : Input) : State :=
  match reader s, i with
  | RdRead true, ReadLineResult (Ok line) =>
      does TReader [Print (line +:+ String "010" "")] s
  | RdRead true, ReadLineResult (Fail e) =>
      if is_EOF e
      then set_reader RdSend s
      else fatalf TReader "failed to read: " e s
  | RdRead false, ReadLineResult _ => set_proc Panicked s
  | RdSend, Received TReader =>
      set_reader RdDone (does TReader [Send EventReconnect] s)
  | _, _ => s
  end.

Definition copying (rl : Relay) (d : Dir) : bool :=
  match d with
  | ToIn => cp_to_in rl
  | ToOut => cp_to_out rl
  end.

(** [errCh <- err] at the end of [cp]. *)
Definition cp_done (rl : Relay) (d : Dir) (err : option error) : Relay :=
  {| rl_in := rl_in rl; rl_pc := rl_pc rl; errCh := errCh rl ++ [err];
     cp_to_in := match d with ToIn => false | ToOut => cp_to_in rl end;
     cp_to_out := match d with ToOut => false | ToIn => cp_to_out rl end |}.

(** [err != nil && err != io.EOF] *)
Definition reportable (err : option error) : bool :=
  match err with
  | Some e => negb (is_EOF e)
  | None => false
  end.

(** Lines 158-183: the relay of the [i]-th relayed connection and its two
    [cp] goroutines. *)
Definition relay_step (c : Configuration) (s : State) (i : nat)
    (a : RelayInput) : State :=
  match relays s !! i with
  | None => s
  | Some rl =>
      let put (rl' : Relay) (s : State) : State :=
        set_relays (<[i := rl']> (relays s)) s in
      match rl_pc rl, a with
      | RlDial, DialResult r =>
          let s :=
            does (TRelay i) [NetDial (host_port (TargetHost c) (TargetPort c))] s in
          match r with
          | Fail e =>
              put {| rl_in := rl_in rl; rl_pc := RlDone; errCh := errCh rl;
                     cp_to_in := cp_to_in rl; cp_to_out := cp_to_out rl |}
                (does (TRelay i)
                   [LogPrint ("failed to connect to target: " +:+ Error e);
                    Close (NetConn (rl_in rl))] s)
          | Ok out =>
              put {| rl_in := rl_in rl; rl_pc := RlWait out; errCh := [];
                     cp_to_in := true; cp_to_out := true |} s
          end
      | _, CopyData d data =>
          if copying rl d then does (TCopy i d) [Copied data] s else s
      | _, CopyResult d err =>
          if copying rl d then put (cp_done rl d err) s else s
      | RlWait out, ErrReceived =>
          match errCh rl with
          | [] => s
          | err :: rest =>
              put {| rl_in := rl_in rl; rl_pc := RlDone; errCh := rest;
                     cp_to_in := cp_to_in rl; cp_to_out := cp_to_out rl |}
                (does (TRelay i)
                   ((if reportable err
                     then [LogPrint ("failed to copy: " +:+
                                     match err with Some e => Error e | None => "" end)]
                     else []) ++
                    [Close (NetConn out); Close (NetConn (rl_in rl))]) s)
          end
      | _, _ => s
      end
  end.

(** One move of the whole process. Nothing moves once the process is gone. *)
Definition step (c : Configuration) (s : State) (i : Input) : State :=
  match proc s with
  | Running =>
      match i with
      | Received TMain | ListenResult _ | AcceptResult _ => main_step c s i
      | Received TReader | ReadLineResult _ => reader_step s i
      | Received _ => s
      | RelayStep n a => relay_step c s n a
      end
  | _ => s
  end.

Definition run (c : Configuration) (s : State) (ins : list Input) : State :=
  fold_left (step c) ins s.

(** The state in which the sequential part of [Create] leaves the process. *)
Definition init (c : Configuration) (w : World) : State :=
  let '(t, r) := Create_setup c w in
  let tr := map (pair TMain) t in
  match r with
  | Exited =>
      {| proc := Exit1; main := MSetup; deferred := []; reader := RdNone;
         relays := []; trace := tr |}
  | Return (ConnectFailed d) =>
      {| proc := Running; main := MSend; deferred := d; reader := RdNone;
         relays := []; trace := tr |}
  | Return (Established d pipe) =>
      {| proc := Running; main := MListen; deferred := d; reader := RdRead pipe;
         relays := []; trace := tr |}
  end.

(** [Create c] in world [w], with the goroutines scheduled as [ins] says. *)
Definition Create (c : Configuration) (w : World) (ins : list Input) : State :=
  run c (init c w) ins.

(** ** Observations on traces *)

#[global] Instance Dir_eq_dec : EqDecision Dir.
Proof. solve_decision. Defined.
#[global] Instance Tid_eq_dec : EqDecision Tid.
Proof. solve_decision. Defined.

Definition is_Send (x : Tid * Event) : bool :=
  match x.2 with
  | Send _ => true
  | _ => false
  end.

(** How many values have been sent on [c.Channel]. *)
Definition sends (tr : list (Tid * Event)) : nat :=
  length (List.filter is_Send tr).

(** What goroutine [t] has done. *)
Definition events_of (t : Tid) (tr : list (Tid * Event)) : list Event :=
  (filter (λ x, x.1 = t) tr).*2.

Definition LF : string := String "010" EmptyString.


(** The kinds of event the sequential part of [Create] can emit. *)
Definition setup_event (e : Event) : bool :=
  match e with
  | Print _ | LogPrint _ | LogError _ | Fatal _ | NetDial _
  | WriteRequest _ _ | Handshake _ _ | Close (NetConn _) => true
  | _ => false
  end.

Definition only_setup_events {A} (m : M A) : Prop :=
  Forall (λ e, setup_event e = true) m.1.

(** The sends on [c.Channel] still to come: a goroutine blocked in one, or
    the reader, which may reach its own. *)
Definition owed (s : State) : nat :=
  (match main s with MSend => 1 | _ => 0 end +
   match reader s with RdRead _ | RdSend => 1 | _ => 0 end)%nat.

(** What holds of the signal in every state [s] reached from [s0]. *)
Record signal_inv (s0 s : State) : Prop := {
  inv_count : (sends (trace s) + owed s ≤ 1)%nat;
  inv_origin : ∀ t e, (t, e) ∈ trace s → is_Send (t, e) = true →
    e = Send EventReconnect ∧
    (t = TMain ∧ main s0 = MSend ∨ t = TReader ∧ reader s0 ≠ RdNone);
  inv_main : main s = MSend → main s0 = MSend;
  inv_reader : reader s ≠ RdNone → reader s0 ≠ RdNone
}.

(** [Create] has no listener and is past the point where it could ask for
    one. *)
Definition no_listener (s : State) : Prop :=
  (main s = MSetup ∨ main s = MSend ∨ main s = MReturned) ∧
  ∀ t addr, (t, Listen addr) ∉ trace s.


(** The world [w], but with a proxy that answers CONNECT with [resp]. *)
Definition answering (w : World) (resp : http.Response) : World :=
  {| ParseAuthorizedKey := ParseAuthorizedKey w;
     Getenv := Getenv w;
     url_Parse := url_Parse w;
     net_Dial := net_Dial w;
     http_ReadResponse := λ _ _, Ok resp;
     peer := peer w;
     NewSession := NewSession w;
     StdoutPipe := StdoutPipe w |}.

(** No relay goroutine was ever started: only [Create] and the reader have
    done anything. *)
Definition no_relay (s : State) : Prop :=
  relays s = [] ∧ ∀ t e, (t, e) ∈ trace s → t = TMain ∨ t = TReader.

(** Two states that differ at most in relay [i] and in what has been done
    so far. *)
Definition same_but (i : nat) (s s' : State) : Prop :=
  proc s = proc s' ∧ main s = main s' ∧ deferred s = deferred s' ∧
  reader s = reader s' ∧ length (relays s) = length (relays s') ∧
  ∀ j, j ≠ i → relays s !! j = relays s' !! j.

(** The input is for relay [i] or one of its [cp] goroutines. *)
Definition concerns (i : nat) (inp : Input) : bool :=
  match inp with
  | RelayStep j _ => Nat.eqb j i
  | _ => false
  end.

(** Relay [i] has returned. *)
Definition relay_done (i : nat) (s : State) : Prop :=
  ∃ rl, relays s !! i = Some rl ∧ rl_pc rl = RlDone.

(** [errCh] has room for what the [cp] goroutines still running will
    send: it is made with capacity 2. *)
Definition errCh_room (rl : Relay) : Prop :=
  (length (errCh rl) + (if cp_to_in rl then 1 else 0) +
   (if cp_to_out rl then 1 else 0) ≤ 2)%nat.

(** ** Further observations *)





(** The request written to the proxy for configuration [c] when the proxy
    URL is [u]: lines 79-89. *)
Definition connect_request (c : Configuration) (u : url.URL) : http.Request :=
  {| http.Method := "CONNECT";
     http.URL := {| url.User := None; url.Host := ""; url.Path := Host c |};
     http.Host := Host c;
     http.Authorization :=
       match url.User u with
       | Some ui =>
           if url.passwordSet ui
           then Some (url.username ui, url.password ui)
           else None
       | None => None
       end |}.

(** Something done with an inbound connection: the hook is started on it, or
    a relay or one of its [cp] goroutines moves. *)
Definition inbound_event (x : Tid * Event) : bool :=
  match x with
  | (TMain, GoHook _) | (TRelay _, _) | (TCopy _ _, _) => true
  | _ => false
  end.

(** A deferred [Close] of [Create] (lines 95, 110, 117 and 143) taking
    place. *)
Definition is_deferred_close (x : Tid * Event) : bool :=
  match x with
  | (TMain, Close RespBody) | (TMain, Close SshClient)
  | (TMain, Close SshSession) | (TMain, Close RemoteListener) => true
  | _ => false
  end.

Definition deferred_closes (tr : list (Tid * Event)) : list (Tid * Event) :=
  List.filter is_deferred_close tr.

(** What [resp.Body] adds to the deferred calls: it is there with a proxy
    only. *)
Definition proxy_deferred (w : World) : list Resource :=
  if negb (String.eqb (Getenv w "http_proxy") "") then [RespBody] else [].

(** The deferred calls of an established session, last registered first. *)
Definition session_deferred (w : World) : list Resource :=
  SshSession :: SshClient :: proxy_deferred w.

(** Where [Create] stands tells what it has deferred and whether the
    deferred calls have run; [s0] is the state the sequential part ended
    in. *)
Definition deferred_inv (w : World) (s0 s : State) : Prop :=
  match main s with
  | MSetup => deferred_closes (trace s) = []
  | MSend =>
      main s0 = MSend ∧ deferred s = [] ∧ deferred_closes (trace s) = []
  | MListen =>
      main s0 = MListen ∧ deferred s = session_deferred w ∧
      deferred_closes (trace s) = []
  | MAccept =>
      main s0 = MListen ∧ deferred s = RemoteListener :: session_deferred w ∧
      deferred_closes (trace s) = []
  | MReturned =>
      (main s0 = MSend ∧ deferred_closes (trace s) = []) ∨
      (main s0 = MListen ∧
       deferred_closes (trace s) =
         map (pair TMain) (map Close (RemoteListener :: session_deferred w)))
  end.



(** ** Sample configurations and worlds *)

Module Sample.

Definition config (hook : option (Conn → option error)) : Configuration :=
  {| Protocol := "tcp"; Subdomain := ""; Domain := ""; Port := 22;
     Host := "relay.example:22"; User := "u";
     RemoteHost := "0.0.0.0"; RemotePort := 9000;
     TargetHost := "127.0.0.1"; TargetPort := 8080;
     InBoundConnectionHook := hook; HideBanner := false |}.

Definition pinned : ssh.PublicKey := {| ssh.Marshal := "pinned-key" |}.

Definition relay : ssh.Peer :=
  {| ssh.kex := Ok pinned; ssh.banner := Some "hello"; ssh.auth := None |}.
Definition silent : ssh.Peer :=
  {| ssh.kex := Fail EOF; ssh.banner := None; ssh.auth := None |}.

(** [http://proxy.example:3128], and a proxy written so that [Hostname]
    keeps the port. *)
Definition proxy_url : url.URL :=
  {| url.User := None; url.Host := "proxy.example:3128"; url.Path := "" |}.
Definition bracketed_proxy_url : url.URL :=
  {| url.User := None; url.Host := "[proxy.example:3128]"; url.Path := "" |}.

(** A world: the value of [http_proxy] and what it parses to, what
    [net.Dial] answers, who answers the handshake, and the status the proxy
    answers CONNECT with. *)
Definition world (proxy : string) (u : url.URL) (dial : result Conn)
    (p : ssh.Peer) (status : Z) : World :=
  {| ParseAuthorizedKey := λ _, Ok pinned;
     Getenv := λ _, proxy;
     url_Parse := λ _, Ok u;
     net_Dial := λ _, dial;
     http_ReadResponse := λ _ _,
       Ok {| http.StatusCode := status; http.Status := "" |};
     peer := λ _, p;
     NewSession := Ok tt;
     StdoutPipe := Ok tt |}.

(** [http_proxy] is set to a proxy whose port is kept. *)
Definition proxied (dial : result Conn) (p : ssh.Peer) (status : Z) : World :=
  world "http://[proxy.example:3128]" bracketed_proxy_url dial p status.

(** No proxy is set. *)
Definition direct (dial : result Conn) (p : ssh.Peer) : World :=
  world "" proxy_url dial p 200.

Definition refused : result Conn := Fail (Err "connection refused").

(** An established session, and the same with its remote listener. *)
Definition established (hook : option (Conn → option error)) : State :=
  Create (config hook) (direct (Ok 3%nat) relay) [].
Definition listening (hook : option (Conn → option error)) : State :=
  Create (config hook) (direct (Ok 3%nat) relay) [ListenResult (Ok tt)].
(** One inbound connection accepted, no hook: its relay is about to dial. *)
Definition relaying : State :=
  Create (config None) (direct (Ok 3%nat) relay)
    [ListenResult (Ok tt); AcceptResult (Ok 10%nat)].

(** A world in which the pinned key does not parse. *)
Definition unparsable : World :=
  {| ParseAuthorizedKey := λ _, Fail (Err "ssh: no key found");
     Getenv := λ _, "http://[proxy.example:3128]";
     url_Parse := λ _, Ok bracketed_proxy_url;
     net_Dial := λ _, Ok 3%nat;
     http_ReadResponse := λ _ _,
       Ok {| http.StatusCode := 200; http.Status := "" |};
     peer := λ _, relay;
     NewSession := Ok tt;
     StdoutPipe := Ok tt |}.

(** A proxy URL with a user and a password. *)
Definition proxy_url_with_password : url.URL :=
  {| url.User := Some {| url.username := "alice"; url.password := "secret";
                         url.passwordSet := true |};
     url.Host := "[proxy.example:3128]"; url.Path := "" |}.

(** A proxy that takes the connection and answers garbage; one whose URL
    does not parse. *)
Definition garbled (u : url.URL) : World :=
  {| ParseAuthorizedKey := λ _, Ok pinned;
     Getenv := λ _, "http://[proxy.example:3128]";
     url_Parse := λ _, Ok u;
     net_Dial := λ _, Ok 3%nat;
     http_ReadResponse := λ _ _, Fail (Err "malformed HTTP response");
     peer := λ _, relay;
     NewSession := Ok tt;
     StdoutPipe := Ok tt |}.
Definition bad_proxy_url : World :=
  {| ParseAuthorizedKey := λ _, Ok pinned;
     Getenv := λ _, "http://%zz";
     url_Parse := λ _, Fail (Err "invalid URL escape");
     net_Dial := λ _, Ok 3%nat;
     http_ReadResponse := λ _ _,
       Ok {| http.StatusCode := 200; http.Status := "" |};
     peer := λ _, relay;
     NewSession := Ok tt;
     StdoutPipe := Ok tt |}.

(** A relay that takes the connection and refuses to open a session. *)
Definition sessionless : World :=
  {| ParseAuthorizedKey := λ _, Ok pinned;
     Getenv := λ _, "";
     url_Parse := λ _, Ok proxy_url;
     net_Dial := λ _, Ok 3%nat;
     http_ReadResponse := λ _ _,
       Ok {| http.StatusCode := 200; http.Status := "" |};
     peer := λ _, relay;
     NewSession := Fail (Err "ssh: rejected: administratively prohibited");
     StdoutPipe := Ok tt |}.

End Sample.

(** * Properties *)

(** ** The transition function *)

Lemma step_stopped c s i : proc s ≠ Running → step c s i = s.
Proof. unfold step. destruct (proc s); congruence. Qed.

Lemma run_stopped c s ins : proc s ≠ Running → run c s ins = s.
Proof.
  intros Hs. induction ins as [|i ins IH]; [done|].
  unfold run in *. simpl. by rewrite step_stopped.
Qed.

Lemma run_app c s ins1 ins2 : run c s (ins1 ++ ins2) = run c (run c s ins1) ins2.
Proof. unfold run. apply fold_left_app. Qed.

Lemma run_snoc c s ins i : run c s (ins ++ [i]) = step c (run c s ins) i.
Proof. by rewrite run_app. Qed.

(** A property that holds of a state and that every move keeps, holds all
    along. *)
Lemma run_invariant (P : State → Prop) c s ins :
  P s → (∀ s i, P s → P (step c s i)) → P (run c s ins).
Proof.
  intros H0 Hstep. induction ins as [|i ins IH] using rev_ind; [done|].
  rewrite run_snoc. by apply Hstep.
Qed.

Lemma sends_app tr1 tr2 : sends (tr1 ++ tr2) = (sends tr1 + sends tr2)%nat.
Proof. unfold sends. by rewrite List.filter_app, length_app. Qed.

Lemma events_of_app t tr1 tr2 :
  events_of t (tr1 ++ tr2) = events_of t tr1 ++ events_of t tr2.
Proof. unfold events_of. by rewrite filter_app, fmap_app. Qed.

(** ** Tactics *)

(** Case analysis on what a move looks at. *)
Ltac goal_match :=
  match goal with
  | |- context [match ?x with _ => _ end] => destruct x eqn:?
  end.

Ltac by_cases :=
  unfold step, main_step, reader_step, relay_step, return_Create, fatalf,
    does, set_proc, set_main, set_deferred, set_reader, set_relays;
  simpl; repeat (goal_match; simplify_eq; simpl).

(** Case analysis on a scrutinee of the goal that holds no other. *)
Ltac inner_match :=
  match goal with
  | |- context [match ?x with _ => _ end] =>
      lazymatch x with
      | context [match _ with _ => _ end] => fail
      | _ => destruct x eqn:?
      end
  end.

(** Split a membership in a trace extended by a move into its cases. *)
Ltac split_elem H :=
  repeat match type of H with
  | _ ∈ _ ++ _ => apply elem_of_app in H as [H|H]
  | _ ∈ _ :: _ => apply elem_of_cons in H as [H|H]
  | _ ∈ [] => by apply elem_of_nil in H
  | _ ∈ map (pair _) (map Close _) =>
      let e := fresh "e" in
      let r := fresh "r" in
      apply list_elem_of_fmap in H as [e [? H]];
      apply list_elem_of_fmap in H as [r [? H]]; simplify_eq
  end.

(** ** The sequential part emits neither a signal nor a listen request *)

Lemma only_bind {A B} (m : M A) (f : A → M B) :
  only_setup_events m → (∀ a, only_setup_events (f a)) →
  only_setup_events (m ≫= f).
Proof.
  unfold only_setup_events. destruct m as [t [a|]]; simpl; intros Hm Hf; [|done].
  specialize (Hf a). destruct (f a) as [t' r]. simpl in *.
  by apply Forall_app.
Qed.

Lemma only_ret {A} (a : A) : only_setup_events (mret a).
Proof. constructor. Qed.

Lemma only_emit e : setup_event e = true → only_setup_events (emit e).
Proof. intros He. by repeat constructor. Qed.

Lemma only_or_Fatalf {A} (r : result A) prefix :
  only_setup_events (or_Fatalf r prefix).
Proof. destruct r; by repeat constructor. Qed.

Lemma only_NewClientConn c p tcp addr key :
  only_setup_events (ssh.NewClientConn p tcp addr (client_config c key)).
Proof.
  unfold ssh.NewClientConn.
  apply only_bind; [by apply only_emit|intros _].
  assert (∀ e, only_setup_events
    (emit (Close (NetConn tcp));; mret (Fail (A:=ssh.Client) (ssh.handshake_failed e)))) as Hfail.
  { intros e. apply only_bind; [by apply only_emit|intros; apply only_ret]. }
  destruct (ssh.kex p); [|done].
  destruct (ssh.HostKeyCallback _ _); [done|].
  apply only_bind.
  - destruct (ssh.banner p); [|apply only_ret]. simpl.
    apply only_bind; [|intros; apply only_ret].
    destruct (HideBanner c); [apply only_ret|by apply only_emit].
  - intros [e|]; [done|]. destruct (ssh.auth p); [done|apply only_ret].
Qed.

Lemma only_Create_setup c w : only_setup_events (Create_setup c w).
Proof.
  unfold Create_setup.
  apply only_bind; [apply only_or_Fatalf|intros key].
  apply only_bind.
  - destruct (negb _).
    + apply only_bind; [|intros; apply only_ret].
      unfold connect_via_proxy.
      apply only_bind; [apply only_or_Fatalf|intros u].
      apply only_bind; [by apply only_emit|intros _].
      apply only_bind; [apply only_or_Fatalf|intros tcp].
      apply only_bind; [by apply only_emit|intros _].
      apply only_bind; [apply only_or_Fatalf|intros _].
      apply only_bind; [apply only_NewClientConn|intros r].
      apply only_or_Fatalf.
    + apply only_bind; [|intros; apply only_ret].
      unfold ssh.Dial.
      apply only_bind; [by apply only_emit|intros _].
      destruct (net_Dial w _); [apply only_NewClientConn|apply only_ret].
  - intros [d [e|]].
    + apply only_bind; [by apply only_emit|intros; apply only_ret].
    + apply only_bind; [apply only_or_Fatalf|intros _].
      apply only_bind; [|intros; apply only_ret].
      destruct (StdoutPipe w); [apply only_ret|].
      apply only_bind; [by apply only_emit|intros; apply only_ret].
Qed.

Lemma trace_init c w : trace (init c w) = map (pair TMain) (Create_setup c w).1.
Proof. unfold init. destruct (Create_setup c w) as [t [[d|d p]|]]; done. Qed.

Lemma init_events c w t e :
  (t, e) ∈ trace (init c w) → t = TMain ∧ setup_event e = true.
Proof.
  rewrite trace_init. intros Hin.
  apply list_elem_of_fmap in Hin as [e' [[= -> ->] Hin]].
  split; [done|].
  pose proof (only_Create_setup c w) as Hall.
  unfold only_setup_events in Hall. rewrite Forall_forall in Hall. by apply Hall.
Qed.

Lemma sends_none tr :
  (∀ x, x ∈ tr → is_Send x = false) → sends tr = 0%nat.
Proof.
  unfold sends. induction tr as [|x tr IH]; [done|]. intros H. simpl.
  rewrite (H x) by left. apply IH. intros y Hy. apply H. by right.
Qed.

Lemma sends_init c w : sends (trace (init c w)) = 0%nat.
Proof.
  apply sends_none. intros [t e] Hin. apply init_events in Hin as [_ He].
  unfold is_Send. simpl. by destruct e.
Qed.

(** The sequential part ends in one of three ways. *)
Lemma init_cases c w :
  (proc (init c w) = Exit1 ∧ main (init c w) = MSetup ∧ reader (init c w) = RdNone) ∨
  (proc (init c w) = Running ∧ main (init c w) = MSend ∧ reader (init c w) = RdNone) ∨
  (proc (init c w) = Running ∧ main (init c w) = MListen ∧
   ∃ pipe, reader (init c w) = RdRead pipe).
Proof.
  unfold init. destruct (Create_setup c w) as [t [[d|d p]|]]; simpl; eauto 10.
Qed.

Lemma relays_init c w : relays (init c w) = [].
Proof. unfold init. destruct (Create_setup c w) as [t [[d|d p]|]]; done. Qed.

(** ** At most one signal *)

Lemma sends_closes t l : sends (map (pair t) (map Close l)) = 0%nat.
Proof. apply sends_none. intros x Hx. 
  apply list_elem_of_fmap in Hx as [e [-> Hx]].
  apply list_elem_of_fmap in Hx as [r [-> Hx]]. done. Qed.

Lemma sends_cons x tr :
  sends (x :: tr) = ((if is_Send x then 1 else 0) + sends tr)%nat.
Proof. unfold sends. simpl. by destruct (is_Send x). Qed.

Lemma sends_nil : sends [] = 0%nat.
Proof. done. Qed.

Lemma signal_inv_step c s0 s i : signal_inv s0 s → signal_inv s0 (step c s i).
Proof.
  intros Hinv. destruct s as [p m d r rl tr].
  by_cases; try done.
  all: destruct Hinv as [Hc Ho Hm Hr]; unfold owed in *; simpl in *.
  all: split; simpl; unfold owed; simpl;
     [ rewrite ?sends_app, ?sends_closes, ?sends_cons, ?sends_nil; simpl in *;
       try lia
     | intros t' e' Hin Hs; split_elem Hin; simplify_eq; try done; eauto
     | try done
     | first [done | intros _; by apply Hr] ].
Qed.

Lemma signal_inv_init c w : signal_inv (init c w) (init c w).
Proof.
  split; try done.
  - rewrite sends_init. unfold owed.
    destruct (init_cases c w) as [(_ & -> & ->)|[(_ & -> & ->)|(_ & -> & p & ->)]];
      simpl; lia.
  - intros t e Hin Hs. apply init_events in Hin as [_ He].
    unfold is_Send in Hs. simpl in *. by destruct e.
Qed.

Lemma signal_inv_run c w ins : signal_inv (init c w) (Create c w ins).
Proof.
  unfold Create. apply (run_invariant (signal_inv (init c w))).
  - apply signal_inv_init.
  - intros s i. apply signal_inv_step.
Qed.

(** C9. In a session attempt at most one value is ever sent on the caller's
    channel. A value sent is [EventReconnect] and comes from one of two
    places: line 107, in the goroutine running [Create], after the connection
    failed; or line 128, in the reader, which was then started. The two never
    both send. *)
Theorem at_most_one_signal c w ins :
  let tr := trace (Create c w ins) in
  (sends tr ≤ 1)%nat ∧
  (∀ t e, (t, e) ∈ tr → is_Send (t, e) = true →
     e = Send EventReconnect ∧
     (t = TMain ∧ main (init c w) = MSend ∧ reader (init c w) = RdNone ∨
      t = TReader ∧ main (init c w) = MListen ∧
        ∃ pipe, reader (init c w) = RdRead pipe)) ∧
  ¬ ((TMain, Send EventReconnect) ∈ tr ∧ (TReader, Send EventReconnect) ∈ tr).
Proof.
  intros tr. destruct (signal_inv_run c w ins) as [Hc Ho _ _]. fold tr in Hc, Ho.
  assert (∀ t e, (t, e) ∈ tr → is_Send (t, e) = true →
     e = Send EventReconnect ∧
     (t = TMain ∧ main (init c w) = MSend ∧ reader (init c w) = RdNone ∨
      t = TReader ∧ main (init c w) = MListen ∧
        ∃ pipe, reader (init c w) = RdRead pipe)) as Ho'.
  { intros t e Hin Hs. destruct (Ho t e Hin Hs) as [-> Hsite]. split; [done|].
    destruct (init_cases c w) as [(_ & Hm & Hr)|[(_ & Hm & Hr)|(_ & Hm & p & Hr)]];
      rewrite Hm, Hr in *; destruct Hsite as [[-> ?]|[-> ?]]; try done; eauto. }
  split_and!; [lia|done|].
  intros [H1 H2].
  destruct (Ho' _ _ H1 eq_refl) as [_ [(_ & _ & Hr1)|(? & _)]]; [|done].
  destruct (Ho' _ _ H2 eq_refl) as [_ [(? & _)|(_ & _ & p & Hr2)]]; [done|].
  congruence.
Qed.

(** ** No listener without a session *)


Lemma no_listener_step c s i : no_listener s → no_listener (step c s i).
Proof.
  intros Hinv. destruct s as [p m d r rl tr].
  by_cases; try done.
  all: destruct Hinv as [Hm Hl]; simpl in *.
  all: try (by destruct Hm as [?|[?|?]]).
  all: split; simpl; [by eauto|].
  all: intros t' addr Hin; split_elem Hin; simplify_eq; by eapply Hl.
Qed.

Lemma no_listener_run c s ins : no_listener s → no_listener (run c s ins).
Proof.
  intros H. apply (run_invariant no_listener); [done|].
  intros s' i. apply no_listener_step.
Qed.

Lemma no_listener_init c w :
  main (init c w) ≠ MListen → no_listener (init c w).
Proof.
  intros Hm. split.
  - destruct (init_cases c w) as [(_ & ? & _)|[(_ & ? & _)|(_ & ? & _)]]; by eauto.
  - intros t addr Hin. by apply init_events in Hin as [_ He].
Qed.

(** ** The address of the proxy *)









(** ** The connection fails *)

Lemma proxy_set w : Getenv w "http_proxy" ≠ "" →
  negb (String.eqb (Getenv w "http_proxy") "") = true.
Proof. intros H. by apply negb_true_iff, String.eqb_neq. Qed.

(** Once [Create] has returned and no goroutine is left, nothing happens. *)
Lemma finished c s ins :
  main s = MReturned → reader s = RdNone → relays s = [] → run c s ins = s.
Proof.
  intros Hm Hr Hrl. induction ins as [|i ins IH]; [done|].
  unfold run in *. simpl.
  assert (step c s i = s) as ->; [|done].
  destruct s as [p m d r rl tr]. simpl in *. subst. by by_cases.
Qed.

(** What the sequential part does when the connection fails, without and
    with a proxy. *)
Lemma init_direct c w pinned :
  ParseAuthorizedKey w hostBytes = Ok pinned →
  Getenv w "http_proxy" = "" →
  ∀ t e, ssh.Dial (net_Dial w) (peer w) (Host c) (client_config c pinned)
           = (t, Return (Fail e)) →
  init c w =
    {| proc := Running; main := MSend; deferred := []; reader := RdNone;
       relays := [];
       trace := map (pair TMain)
                  (t ++ [LogError ("failed to connect: " +:+ Error e)]) |}.
Proof.
  intros Hkey Hproxy t e Hdial. unfold init, Create_setup.
  rewrite Hkey, Hproxy. simpl. rewrite Hdial. simpl.
  by rewrite !app_nil_r.
Qed.

Lemma send_and_return c s :
  proc s = Running → main s = MSend →
  step c s (Received TMain) =
    {| proc := Running; main := MReturned; deferred := []; reader := reader s;
       relays := relays s;
       trace := (trace s ++ [(TMain, Send EventReconnect)]) ++
                map (pair TMain) (map Close (deferred s)) |}.
Proof. intros Hp Hm. destruct s. simpl in *. subst. done. Qed.

(** C2, as the code has it. Without a proxy, when [net.Dial] to the relay
    fails, the attempt logs the failure, sends [EventReconnect] on the
    caller's channel and returns; the process goes on, and nothing of the
    attempt is left running. With a proxy, when [net.Dial] to the proxy
    fails, the process exits, and nothing is ever sent. *)
Theorem connect_failure c w pinned e :
  ParseAuthorizedKey w hostBytes = Ok pinned →
  (Getenv w "http_proxy" = "" → net_Dial w (Host c) = Fail e →
   init c w =
     {| proc := Running; main := MSend; deferred := []; reader := RdNone;
        relays := [];
        trace := [(TMain, NetDial (Host c));
                  (TMain, LogError ("failed to connect: " +:+ Error e))] |} ∧
   ∀ ins, Create c w (Received TMain :: ins) =
     {| proc := Running; main := MReturned; deferred := []; reader := RdNone;
        relays := [];
        trace := [(TMain, NetDial (Host c));
                  (TMain, LogError ("failed to connect: " +:+ Error e));
                  (TMain, Send EventReconnect)] |}) ∧
  (∀ u, Getenv w "http_proxy" ≠ "" →
   url_Parse w (Getenv w "http_proxy") = Ok u →
   net_Dial w (url.Hostname u) = Fail e →
   ∀ ins, Create c w ins =
     {| proc := Exit1; main := MSetup; deferred := []; reader := RdNone;
        relays := [];
        trace := [(TMain, NetDial (url.Hostname u));
                  (TMain, Fatal ("cannot open new session: " +:+ Error e))] |}).
Proof.
  intros Hkey. split.
  - intros Hproxy Hdial.
    assert (init c w =
     {| proc := Running; main := MSend; deferred := []; reader := RdNone;
        relays := [];
        trace := [(TMain, NetDial (Host c));
                  (TMain, LogError ("failed to connect: " +:+ Error e))] |}) as Hinit.
    { rewrite (init_direct c w pinned Hkey Hproxy [NetDial (Host c)] e); [done|].
      unfold ssh.Dial. by rewrite Hdial. }
    split; [done|]. intros ins. unfold Create, run. simpl. fold (run c).
    rewrite Hinit. rewrite send_and_return by done. simpl.
    by apply finished.
  - intros u Hproxy Hurl Hdial ins. unfold Create.
    assert (init c w =
     {| proc := Exit1; main := MSetup; deferred := []; reader := RdNone;
        relays := [];
        trace := [(TMain, NetDial (url.Hostname u));
                  (TMain, Fatal ("cannot open new session: " +:+ Error e))] |}) as ->.
    { unfold init, Create_setup. rewrite Hkey. simpl.
      rewrite proxy_set by done. unfold connect_via_proxy.
      rewrite Hurl. simpl. by rewrite Hdial. }
    by apply run_stopped.
Qed.

(** C2 at work: the relay refuses the connection; the proxy does. *)
Lemma connect_failure_witness :
  (∀ ins, Create (Sample.config None) (Sample.direct Sample.refused Sample.relay)
            (Received TMain :: ins) =
     {| proc := Running; main := MReturned; deferred := []; reader := RdNone;
        relays := [];
        trace := [(TMain, NetDial "relay.example:22");
                  (TMain, LogError "failed to connect: connection refused");
                  (TMain, Send 1)] |}) ∧
  (∀ ins, Create (Sample.config None)
            (Sample.world "http://proxy.example:3128" Sample.proxy_url
               Sample.refused Sample.relay 200) ins =
     {| proc := Exit1; main := MSetup; deferred := []; reader := RdNone;
        relays := [];
        trace := [(TMain, NetDial "proxy.example");
                  (TMain, Fatal "cannot open new session: connection refused")] |}).
Proof.
  split.
  - exact (proj2 (proj1 (connect_failure (Sample.config None)
             (Sample.direct Sample.refused Sample.relay) Sample.pinned
             (Err "connection refused") eq_refl) eq_refl eq_refl)).
  - exact (proj2 (connect_failure (Sample.config None)
             (Sample.world "http://proxy.example:3128" Sample.proxy_url
                Sample.refused Sample.relay 200) Sample.pinned
             (Err "connection refused") eq_refl)
             Sample.proxy_url ltac:(discriminate) eq_refl eq_refl).
Defined.

(** C2 as it is written fails: the connection to the proxy is refused, and
    the process exits without a signal, whatever is scheduled afterwards. *)
Lemma connect_failure_via_proxy_is_fatal :
  net_Dial (Sample.world "http://proxy.example:3128" Sample.proxy_url
              Sample.refused Sample.relay 200) "proxy.example"
    = Fail (Err "connection refused") ∧
  Create (Sample.config None)
    (Sample.world "http://proxy.example:3128" Sample.proxy_url
       Sample.refused Sample.relay 200) [Received TMain] =
    {| proc := Exit1; main := MSetup; deferred := []; reader := RdNone;
       relays := [];
       trace := [(TMain, NetDial "proxy.example");
                 (TMain, Fatal "cannot open new session: connection refused")] |}.
Proof. split; reflexivity. Qed.

(** ** A relay that is not the pinned one *)






(** ** Through a proxy *)

(** The answer of the proxy is read and never looked at: whatever its
    status, the attempt goes the same way. *)
Lemma status_is_ignored c w resp resp' :
  init c (answering w resp) = init c (answering w resp').
Proof.
  unfold init, Create_setup, connect_via_proxy. simpl.
  destruct (ParseAuthorizedKey w hostBytes); [|done]. simpl.
  destruct (negb _); [|done].
  destruct (url_Parse w _); [|done]. simpl.
  destruct (net_Dial w _); done.
Qed.

(** C3 on the code. The proxy answers CONNECT with 403. The attempt goes on
    to the handshake all the same: with a relay behind the connection the
    session is established; with nothing behind it the process exits, but
    on the failed handshake. In general, two answers of the proxy that were
    both read without error lead to the same state. *)
Theorem connect_status_not_checked :
  init (Sample.config None)
    (Sample.proxied (Ok 3%nat) Sample.relay 403) =
    {| proc := Running; main := MListen;
       deferred := [SshSession; SshClient; RespBody]; reader := RdRead true;
       relays := [];
       trace :=
         [(TMain, NetDial "proxy.example:3128");
          (TMain, WriteRequest 3%nat
             {| http.Method := "CONNECT";
                http.URL := {| url.User := None; url.Host := "";
                               url.Path := "relay.example:22" |};
                http.Host := "relay.example:22";
                http.Authorization := None |});
          (TMain, Handshake 3%nat "relay.example:22");
          (TMain, Print "hello")] |} ∧
  init (Sample.config None)
    (Sample.proxied (Ok 3%nat) Sample.silent 403) =
    {| proc := Exit1; main := MSetup; deferred := []; reader := RdNone;
       relays := [];
       trace :=
         [(TMain, NetDial "proxy.example:3128");
          (TMain, WriteRequest 3%nat
             {| http.Method := "CONNECT";
                http.URL := {| url.User := None; url.Host := "";
                               url.Path := "relay.example:22" |};
                http.Host := "relay.example:22";
                http.Authorization := None |});
          (TMain, Handshake 3%nat "relay.example:22");
          (TMain, Close (NetConn 3%nat));
          (TMain, Fatal
             "cannot open new session: ssh: handshake failed: EOF")] |} ∧
  ∀ c w resp resp', init c (answering w resp) = init c (answering w resp').
Proof. split_and!; [reflexivity..|apply status_is_ignored]. Qed.



(** ** Goroutines that have returned *)

Lemma events_of_pair_ne t t' es : t ≠ t' → events_of t (map (pair t') es) = [].
Proof.
  intros Hne. unfold events_of. induction es as [|e es IH]; [done|].
  change (map (pair t') (e :: es)) with ((t', e) :: map (pair t') es).
  rewrite filter_cons_False; [done|]. simpl. congruence.
Qed.

Lemma events_of_pair_eq t es : events_of t (map (pair t) es) = es.
Proof.
  unfold events_of. induction es as [|e es IH]; [done|].
  change (map (pair t) (e :: es)) with ((t, e) :: map (pair t) es).
  rewrite filter_cons_True by done. rewrite fmap_cons. simpl. by rewrite IH.
Qed.

Lemma events_of_one_ne t t' e : t ≠ t' → events_of t [(t', e)] = [].
Proof. apply (events_of_pair_ne t t' [e]). Qed.

Lemma events_of_two_ne t t' e1 e2 :
  t ≠ t' → events_of t [(t', e1); (t', e2)] = [].
Proof. apply (events_of_pair_ne t t' [e1; e2]). Qed.

Lemma events_of_three_ne t t' e1 e2 e3 :
  t ≠ t' → events_of t [(t', e1); (t', e2); (t', e3)] = [].
Proof. apply (events_of_pair_ne t t' [e1; e2; e3]). Qed.

(** The reader, once returned, stays so and does nothing more. *)
Lemma reader_done_step c s i :
  reader s = RdDone →
  reader (step c s i) = RdDone ∧
  events_of TReader (trace (step c s i)) = events_of TReader (trace s).
Proof.
  intros Hr. destruct s as [p m d r rl tr]. simpl in *. subst.
  by_cases; try done.
  all: split; [done|].
  all: rewrite ?events_of_app, ?(events_of_pair_ne TReader TMain) by done.
  all: rewrite ?events_of_one_ne, ?events_of_two_ne, ?events_of_three_ne by done.
  all: by rewrite ?app_nil_r.
Qed.

Lemma reader_done_run c s ins :
  reader s = RdDone →
  reader (run c s ins) = RdDone ∧
  events_of TReader (trace (run c s ins)) = events_of TReader (trace s).
Proof.
  intros Hr.
  apply (run_invariant (λ s', reader s' = RdDone ∧
           events_of TReader (trace s') = events_of TReader (trace s)));
    [done|].
  intros s' i [Hr' Hev]. destruct (reader_done_step c s' i Hr') as [? ?].
  split; congruence.
Qed.

(** [Create], once returned, stays so and does nothing more. *)
Lemma main_returned_step c s i :
  main s = MReturned →
  main (step c s i) = MReturned ∧
  events_of TMain (trace (step c s i)) = events_of TMain (trace s).
Proof.
  intros Hr. destruct s as [p m d r rl tr]. simpl in *. subst.
  by_cases; try done.
  all: split; [done|].
  all: rewrite ?events_of_app.
  all: rewrite ?events_of_one_ne, ?events_of_two_ne, ?events_of_three_ne by done.
  all: by rewrite ?app_nil_r.
Qed.

Lemma main_returned_run c s ins :
  main s = MReturned →
  main (run c s ins) = MReturned ∧
  events_of TMain (trace (run c s ins)) = events_of TMain (trace s).
Proof.
  intros Hr.
  apply (run_invariant (λ s', main s' = MReturned ∧
           events_of TMain (trace s') = events_of TMain (trace s)));
    [done|].
  intros s' i [Hr' Hev]. destruct (main_returned_step c s' i Hr') as [? ?].
  split; congruence.
Qed.

(** ** The reader of the control channel *)

(** C4. The reader of an established session, blocked in [ReadLine]:
    a line read is printed, and the reader reads on; at end of stream it
    sends [EventReconnect] on the caller's channel, once, and returns, after
    which it does nothing more; on any other error the process exits. *)
Theorem control_output_reader c s :
  proc s = Running → reader s = RdRead true →
  (∀ line, let s' := step c s (ReadLineResult (Ok line)) in
     trace s' = trace s ++ [(TReader, Print (line +:+ LF))] ∧
     reader s' = RdRead true ∧ proc s' = Running) ∧
  (let s1 := step c s (ReadLineResult (Fail EOF)) in
   let s2 := step c s1 (Received TReader) in
   trace s1 = trace s ∧ reader s1 = RdSend ∧ proc s1 = Running ∧
   trace s2 = trace s ++ [(TReader, Send EventReconnect)] ∧
   reader s2 = RdDone ∧ proc s2 = Running ∧
   ∀ ins, reader (run c s2 ins) = RdDone ∧
     events_of TReader (trace (run c s2 ins)) =
       events_of TReader (trace s) ++ [Send EventReconnect]) ∧
  (∀ msg, let s' := step c s (ReadLineResult (Fail (Err msg))) in
     trace s' = trace s ++ [(TReader, Fatal ("failed to read: " +:+ msg))] ∧
     proc s' = Exit1 ∧ ∀ ins, run c s' ins = s').
Proof.
  intros Hp Hr. destruct s as [p m d r rl tr]. simpl in *. subst.
  split_and!; try done.
  - intros ins.
    pose proof (reader_done_run c
      {| proc := Running; main := m; deferred := d; reader := RdDone;
         relays := rl; trace := tr ++ [(TReader, Send EventReconnect)] |} ins
      eq_refl) as [Hd Hev].
    split; [exact Hd|]. etrans; [exact Hev|]. cbn [trace].
    by rewrite events_of_app.
  - intros msg. split_and!; [done..|]. intros ins. by apply run_stopped.
Qed.

(** C4 at work on an established session. *)
Lemma control_output_reader_witness :
  let s := Sample.established None in
  (∀ line, let s' := step (Sample.config None) s (ReadLineResult (Ok line)) in
     trace s' = trace s ++ [(TReader, Print (line +:+ LF))] ∧
     reader s' = RdRead true ∧ proc s' = Running) ∧
  (let s1 := step (Sample.config None) s (ReadLineResult (Fail EOF)) in
   let s2 := step (Sample.config None) s1 (Received TReader) in
   trace s1 = trace s ∧ reader s1 = RdSend ∧ proc s1 = Running ∧
   trace s2 = trace s ++ [(TReader, Send EventReconnect)] ∧
   reader s2 = RdDone ∧ proc s2 = Running ∧
   ∀ ins, reader (run (Sample.config None) s2 ins) = RdDone ∧
     events_of TReader (trace (run (Sample.config None) s2 ins)) =
       events_of TReader (trace s) ++ [Send EventReconnect]) ∧
  (∀ msg, let s' := step (Sample.config None) s
                      (ReadLineResult (Fail (Err msg))) in
     trace s' = trace s ++ [(TReader, Fatal ("failed to read: " +:+ msg))] ∧
     proc s' = Exit1 ∧ ∀ ins, run (Sample.config None) s' ins = s').
Proof.
  apply (control_output_reader (Sample.config None) (Sample.established None));
    reflexivity.
Defined.

(** ** The remote listener *)

(** The goroutine running [Create] sends nothing once the session is
    established. *)
Lemma main_never_sends c w ins :
  main (Create c w ins) = MListen ∨ main (Create c w ins) = MAccept →
  ∀ ins' code, (TMain, Send code) ∉ trace (run c (Create c w ins) ins').
Proof.
  intros Hm ins' code Hin. unfold Create in Hin. rewrite <-run_app in Hin.
  destruct (signal_inv_run c w (ins ++ ins')) as [_ Ho _ _].
  destruct (Ho _ _ Hin eq_refl) as [_ [[_ Hs]|[? _]]]; [|done].
  assert (no_listener (Create c w ins)) as [Hnl _].
  { apply no_listener_run, no_listener_init. by rewrite Hs. }
  destruct Hm as [Hm|Hm]; rewrite Hm in Hnl; by destruct Hnl as [?|[?|?]].
Qed.

Lemma listen_failed c s e :
  proc s = Running → main s = MListen →
  step c s (ListenResult (Fail e)) =
    {| proc := Exit1; main := MListen; deferred := deferred s;
       reader := reader s; relays := relays s;
       trace := trace s ++
         [(TMain, Listen (host_port (RemoteHost c) (RemotePort c)));
          (TMain, Fatal ("failed to listen on remote host: " +:+ Error e))] |}.
Proof.
  intros Hp Hm. destruct s. simpl in *. subst.
  unfold step, main_step, fatalf, does, set_proc. simpl.
  by rewrite <-app_assoc.
Qed.

Lemma accept_failed c s e :
  proc s = Running → main s = MAccept →
  step c s (AcceptResult (Fail e)) =
    {| proc := Running; main := MReturned; deferred := [];
       reader := reader s; relays := relays s;
       trace := (trace s ++
         [(TMain, LogPrint ("failed to accept connection: " +:+ Error e))]) ++
         map (pair TMain) (map Close (deferred s)) |}.
Proof. intros Hp Hm. destruct s. simpl in *. subst. done. Qed.

(** C5. In an established session: when [client.Listen] fails the process
    exits. When [ln.Accept] fails, [Create] logs it, runs its deferred calls
    and returns; the process goes on, [Create] does nothing more, and at no
    time has the goroutine running [Create] sent anything on the caller's
    channel. *)
Theorem listener_failures c w ins e :
  proc (Create c w ins) = Running →
  (main (Create c w ins) = MListen →
   let s' := step c (Create c w ins) (ListenResult (Fail e)) in
   trace s' = trace (Create c w ins) ++
     [(TMain, Listen (host_port (RemoteHost c) (RemotePort c)));
      (TMain, Fatal ("failed to listen on remote host: " +:+ Error e))] ∧
   proc s' = Exit1 ∧ ∀ ins', run c s' ins' = s') ∧
  (main (Create c w ins) = MAccept →
   let s' := step c (Create c w ins) (AcceptResult (Fail e)) in
   trace s' = trace (Create c w ins) ++
     (TMain, LogPrint ("failed to accept connection: " +:+ Error e)) ::
     map (pair TMain) (map Close (deferred (Create c w ins))) ∧
   proc s' = Running ∧ main s' = MReturned ∧
   sends (trace s') = sends (trace (Create c w ins)) ∧
   ∀ ins', main (run c s' ins') = MReturned ∧
     events_of TMain (trace (run c s' ins')) = events_of TMain (trace s') ∧
     ∀ code, (TMain, Send code) ∉ trace (run c s' ins')).
Proof.
  intros Hp. split; intros Hm.
  - rewrite (listen_failed c _ e Hp Hm). cbn [trace proc].
    split_and!; [done..|]. intros ins'. by apply run_stopped.
  - pose proof (main_never_sends c w ins (or_intror Hm)) as Hns.
    rewrite (accept_failed c _ e Hp Hm) in *. cbn [trace proc main].
    split_and!; [by rewrite <-app_assoc|done..| |].
    + by rewrite !sends_app, sends_closes, sends_cons, sends_nil, !Nat.add_0_r.
    + intros ins'.
      destruct (main_returned_run c
        {| proc := Running; main := MReturned; deferred := [];
           reader := reader (Create c w ins); relays := relays (Create c w ins);
           trace := (trace (Create c w ins) ++
                     [(TMain, LogPrint ("failed to accept connection: "
                                        +:+ Error e))]) ++
                    map (pair TMain) (map Close (deferred (Create c w ins))) |}
        ins' eq_refl) as [? ?].
      split_and!; [done..|]. intros code.
      rewrite <-(accept_failed c _ e Hp Hm).
      apply (Hns (AcceptResult (Fail e) :: ins') code).
Qed.

(** C5 at work: an established session whose listener is refused, and one
    whose listener breaks. *)
Lemma listener_failures_witness :
  (let s := Sample.established None in
   let s' := step (Sample.config None) s (ListenResult (Fail (Err "refused"))) in
   trace s' = trace s ++
     [(TMain, Listen (host_port "0.0.0.0" 9000));
      (TMain, Fatal ("failed to listen on remote host: " +:+ "refused"))] ∧
   proc s' = Exit1 ∧ ∀ ins', run (Sample.config None) s' ins' = s') ∧
  (let s := Sample.listening None in
   let s' := step (Sample.config None) s (AcceptResult (Fail (Err "closed"))) in
   trace s' = trace s ++
     (TMain, LogPrint ("failed to accept connection: " +:+ "closed")) ::
     map (pair TMain) (map Close (deferred s)) ∧
   proc s' = Running ∧ main s' = MReturned ∧
   sends (trace s') = sends (trace s) ∧
   ∀ ins', main (run (Sample.config None) s' ins') = MReturned ∧
     events_of TMain (trace (run (Sample.config None) s' ins')) =
       events_of TMain (trace s') ∧
     ∀ code, (TMain, Send code) ∉ trace (run (Sample.config None) s' ins')).
Proof.
  split.
  - exact (proj1 (listener_failures (Sample.config None)
             (Sample.direct (Ok 3%nat) Sample.relay) [] (Err "refused") eq_refl)
             eq_refl).
  - exact (proj2 (listener_failures (Sample.config None)
             (Sample.direct (Ok 3%nat) Sample.relay) [ListenResult (Ok tt)]
             (Err "closed") eq_refl) eq_refl).
Defined.

(** ** The hook *)

Lemma no_relay_step c h s i :
  InBoundConnectionHook c = Some h → no_relay s → no_relay (step c s i).
Proof.
  intros Hh Hinv. destruct s as [p m d r rl tr].
  destruct Hinv as [Hrl Htr]. simpl in *. subst.
  by_cases; try done.
  all: split; [done|]; simpl.
  all: intros t' e' Hin; split_elem Hin; simplify_eq; eauto.
Qed.

Lemma no_relay_init c w : no_relay (init c w).
Proof.
  split; [apply relays_init|].
  intros t e Hin. apply init_events in Hin as [-> _]. by left.
Qed.

Lemma hooked c h s inb :
  InBoundConnectionHook c = Some h →
  proc s = Running → main s = MAccept →
  step c s (AcceptResult (Ok inb)) =
    {| proc := Running; main := MAccept; deferred := deferred s;
       reader := reader s; relays := relays s;
       trace := trace s ++ [(TMain, GoHook inb)] |}.
Proof.
  intros Hh Hp Hm. destruct s. simpl in *. subst.
  unfold step, main_step. simpl. by rewrite Hh.
Qed.

(** C8. With a hook configured, a connection accepted by the loop is given
    to [go c.InBoundConnectionHook(in)] and the loop is back in [ln.Accept]:
    nothing else happens, the connection is neither dialed for nor closed,
    and the next connection is taken the same way. In a whole session no
    relay goroutine is ever started. *)
Theorem hook_takes_connection c h s inb :
  InBoundConnectionHook c = Some h →
  proc s = Running → main s = MAccept →
  (let s' := step c s (AcceptResult (Ok inb)) in
   trace s' = trace s ++ [(TMain, GoHook inb)] ∧
   main s' = MAccept ∧ proc s' = Running ∧ relays s' = relays s ∧
   deferred s' = deferred s ∧ reader s' = reader s ∧
   ∀ inb', trace (step c s' (AcceptResult (Ok inb'))) =
     trace s ++ [(TMain, GoHook inb); (TMain, GoHook inb')]) ∧
  ∀ w ins, no_relay (Create c w ins).
Proof.
  intros Hh Hp Hm. split.
  - rewrite (hooked c h s inb Hh Hp Hm). cbn [trace proc main relays deferred reader].
    split_and!; [done..|]. intros inb'.
    rewrite (hooked c h _ inb' Hh); [|done..]. simpl. by rewrite <-app_assoc.
  - intros w ins. unfold Create. apply (run_invariant no_relay).
    + apply no_relay_init.
    + intros s' i. by apply (no_relay_step c h).
Qed.

(** C8 at work: two connections arrive on a listening session with a
    hook. *)
Lemma hook_takes_connection_witness :
  let c := Sample.config (Some (λ _, None)) in
  let s := Sample.listening (Some (λ _, None)) in
  (let s' := step c s (AcceptResult (Ok 10%nat)) in
   trace s' = trace s ++ [(TMain, GoHook 10%nat)] ∧
   main s' = MAccept ∧ proc s' = Running ∧ relays s' = relays s ∧
   deferred s' = deferred s ∧ reader s' = reader s ∧
   ∀ inb', trace (step c s' (AcceptResult (Ok inb'))) =
     trace s ++ [(TMain, GoHook 10%nat); (TMain, GoHook inb')]) ∧
  ∀ w ins, no_relay (Create c w ins).
Proof.
  apply (hook_takes_connection (Sample.config (Some (λ _, None))) (λ _, None)
           (Sample.listening (Some (λ _, None))) 10%nat); reflexivity.
Defined.

(** ** Relays do not disturb one another *)

Lemma lookup_snoc_same {A} (l l' : list A) x j :
  length l = length l' → l !! j = l' !! j → (l ++ [x]) !! j = (l' ++ [x]) !! j.
Proof.
  intros Hlen Hj. destruct (decide (j < length l)%nat) as [Hlt|Hge].
  - rewrite !lookup_app_l by lia. done.
  - rewrite !lookup_app_r by lia. by rewrite Hlen.
Qed.

Lemma lookup_insert_same {A} (l l' : list A) x j k :
  length l = length l' → l !! k = l' !! k →
  <[j := x]> l !! k = <[j := x]> l' !! k.
Proof.
  intros Hlen Hk. destruct (decide (j = k)) as [->|Hne].
  - destruct (decide (k < length l)%nat).
    + rewrite !list_lookup_insert_eq by lia. done.
    + rewrite !list_insert_ge by lia. done.
  - by rewrite !list_lookup_insert_ne.
Qed.

(** A move that is not for relay [i] does the same, whatever relay [i] is
    up to. *)
Lemma step_same_but c i s s' inp :
  same_but i s s' → concerns i inp = false →
  same_but i (step c s inp) (step c s' inp) ∧
  ∃ es, trace (step c s inp) = trace s ++ es ∧
        trace (step c s' inp) = trace s' ++ es.
Proof.
  intros Hsame Hinp.
  destruct s as [p m d r rl tr], s' as [p' m' d' r' rl' tr'].
  destruct Hsame as (Hp & Hm & Hd & Hr & Hlen & Hrl). simpl in *. subst.
  assert (∀ a b : list (Tid * Event), ∃ es, a = a ++ es ∧ b = b ++ es) as Hnil.
  { intros a b. exists []. by rewrite !app_nil_r. }
  destruct inp as [t| | | |j a].
  - by_cases; rewrite <-?app_assoc; (split; [done|eauto]).
  - by_cases; rewrite <-?app_assoc; (split; [done|eauto]).
  - by_cases; rewrite <-?app_assoc; (split; [|by eauto]); try done.
    unfold same_but. simpl. rewrite !length_app, Hlen.
    split_and!; [done..|]. intros j Hj. by apply lookup_snoc_same, Hrl.
  - by_cases; rewrite <-?app_assoc; (split; [done|eauto]).
  - simpl in Hinp. apply Nat.eqb_neq in Hinp.
    unfold step, relay_step. simpl. rewrite <-(Hrl j Hinp).
    destruct p'; try (split; [done|eauto]).
    destruct (rl !! j) as [rlj|] eqn:Hj; [|split; [done|eauto]].
    assert (∀ x, same_but i
      {| proc := Running; main := m'; deferred := d'; reader := r';
         relays := <[j := x]> rl; trace := [] |}
      {| proc := Running; main := m'; deferred := d'; reader := r';
         relays := <[j := x]> rl'; trace := [] |}) as Hput.
    { intros x. unfold same_but. simpl. rewrite !length_insert.
      split_and!; [done..|]. intros k Hk. by apply lookup_insert_same, Hrl. }
    by_cases; rewrite <-?app_assoc;
      (split; [first [done|apply Hput]|by eauto]).
Qed.

Lemma run_same_but c i ins : ∀ s s',
  same_but i s s' → Forall (λ inp, concerns i inp = false) ins →
  same_but i (run c s ins) (run c s' ins) ∧
  ∃ es, trace (run c s ins) = trace s ++ es ∧
        trace (run c s' ins) = trace s' ++ es.
Proof.
  induction ins as [|inp ins IH]; intros s s' Hsame Hins.
  - split; [done|]. exists []. by rewrite !app_nil_r.
  - apply Forall_cons in Hins as [Hinp Hins].
    destruct (step_same_but c i s s' inp Hsame Hinp) as (Hsame' & es & H1 & H2).
    destruct (IH _ _ Hsame' Hins) as (Hsame'' & es' & H1' & H2').
    split; [done|]. exists (es ++ es'). unfold run in *. simpl.
    rewrite H1', H2', H1, H2. by rewrite !app_assoc.
Qed.

(** ** One relay *)

(** A relay that has returned stays so and does nothing more. *)
Lemma relay_done_step c i s inp :
  relay_done i s →
  relay_done i (step c s inp) ∧
  events_of (TRelay i) (trace (step c s inp)) = events_of (TRelay i) (trace s).
Proof.
  intros (rli & Hi & Hpc). destruct s as [p m d r rl tr]. simpl in *.
  assert (∀ j x, j ≠ i → relay_done i
    {| proc := Running; main := m; deferred := d; reader := r;
       relays := <[j := x]> rl; trace := [] |}) as Hput.
  { intros j x Hj. exists rli. simpl. by rewrite list_lookup_insert_ne. }
  assert (∀ j x, j = i → rl_pc x = RlDone → relay_done i
    {| proc := Running; main := m; deferred := d; reader := r;
       relays := <[j := x]> rl; trace := [] |}) as Hput'.
  { intros j x -> Hx. exists x. simpl. split; [|done].
    apply list_lookup_insert_eq. by eapply lookup_lt_Some. }
  assert (relay_done i
    {| proc := Running; main := m; deferred := d; reader := r;
       relays := rl; trace := [] |}) as Hsame by (by exists rli).
  destruct inp as [t| | | |j a].
  1-4: by_cases; try (split; [by exists rli|done]).
  1-9: split;
    [ first [exact Hsame | exists rli; simpl; by rewrite lookup_app_l by (by eapply lookup_lt_Some)]
    | rewrite ?events_of_app;
      rewrite ?events_of_one_ne, ?events_of_two_ne, ?events_of_three_ne,
        ?(events_of_pair_ne (TRelay i) TMain) by done;
      by rewrite ?app_nil_r ].
  destruct (decide (j = i)) as [->|Hne].
  - unfold step, relay_step. simpl. rewrite Hi.
    destruct p; try (split; [by exists rli|done]).
    rewrite Hpc. destruct a as [res|dir data|dir err|]; try (split; [done|done]).
    + destruct (copying rli dir); [|by split]. split; [done|].
      simpl. rewrite events_of_app, events_of_one_ne by done.
      by rewrite app_nil_r.
    + destruct (copying rli dir); [|by split]. split; [|done].
      apply Hput'; [done|]. by destruct dir.
  - by_cases; try (split; [by exists rli|done]).
    all: split; [first [by apply Hput|exact Hsame]|].
    all: rewrite ?events_of_app.
    all: rewrite ?events_of_one_ne, ?events_of_two_ne, ?events_of_three_ne
           by congruence.
    all: by rewrite ?app_nil_r.
Qed.

Lemma relay_done_run c i s ins :
  relay_done i s →
  relay_done i (run c s ins) ∧
  events_of (TRelay i) (trace (run c s ins)) = events_of (TRelay i) (trace s).
Proof.
  intros Hd.
  apply (run_invariant (λ s', relay_done i s' ∧
           events_of (TRelay i) (trace s') = events_of (TRelay i) (trace s)));
    [done|].
  intros s' inp [Hd' Hev]. destruct (relay_done_step c i s' inp Hd') as [? ?].
  split; congruence.
Qed.

Lemma dial_failed c s i rl e :
  proc s = Running → relays s !! i = Some rl → rl_pc rl = RlDial →
  step c s (RelayStep i (DialResult (Fail e))) =
    {| proc := Running; main := main s; deferred := deferred s;
       reader := reader s;
       relays := <[i := {| rl_in := rl_in rl; rl_pc := RlDone;
                           errCh := errCh rl; cp_to_in := cp_to_in rl;
                           cp_to_out := cp_to_out rl |}]> (relays s);
       trace := trace s ++
         [(TRelay i, NetDial (host_port (TargetHost c) (TargetPort c)));
          (TRelay i, LogPrint ("failed to connect to target: " +:+ Error e));
          (TRelay i, Close (NetConn (rl_in rl)))] |}.
Proof.
  intros Hp Hi Hpc. destruct s. simpl in *. subst.
  unfold step, relay_step. simpl. rewrite Hi, Hpc.
  unfold set_relays, does. simpl. by rewrite <-app_assoc.
Qed.

(** C6. A relay whose [net.Dial] to the target fails logs it, closes its
    inbound connection and returns, and does nothing more. Nothing is sent
    on the caller's channel, the process goes on, and [Create], the reader
    and the other relays are where they were: whatever they are scheduled to
    do next, they do as if this relay had not moved. *)
Theorem target_dial_failure_is_isolated c s i rl e :
  proc s = Running → relays s !! i = Some rl → rl_pc rl = RlDial →
  let s' := step c s (RelayStep i (DialResult (Fail e))) in
  trace s' = trace s ++
    [(TRelay i, NetDial (host_port (TargetHost c) (TargetPort c)));
     (TRelay i, LogPrint ("failed to connect to target: " +:+ Error e));
     (TRelay i, Close (NetConn (rl_in rl)))] ∧
  sends (trace s') = sends (trace s) ∧
  proc s' = Running ∧ main s' = main s ∧ reader s' = reader s ∧
  deferred s' = deferred s ∧
  length (relays s') = length (relays s) ∧
  (∀ j, j ≠ i → relays s' !! j = relays s !! j) ∧
  (∀ ins, relay_done i (run c s' ins) ∧
     events_of (TRelay i) (trace (run c s' ins)) =
       events_of (TRelay i) (trace s')) ∧
  (∀ ins, Forall (λ inp, concerns i inp = false) ins →
     same_but i (run c s ins) (run c s' ins) ∧
     ∃ es, trace (run c s ins) = trace s ++ es ∧
           trace (run c s' ins) = trace s' ++ es).
Proof.
  intros Hp Hi Hpc. rewrite (dial_failed c s i rl e Hp Hi Hpc).
  cbn [trace proc main reader deferred relays].
  split_and!; try done.
  - rewrite sends_app, !sends_cons, sends_nil. simpl. lia.
  - by rewrite length_insert.
  - intros j Hj. by rewrite list_lookup_insert_ne.
  - intros ins. apply relay_done_run. eexists. simpl.
    split; [apply list_lookup_insert_eq; by eapply lookup_lt_Some|done].
  - intros ins Hins. apply run_same_but; [|done].
    unfold same_but. simpl. rewrite length_insert.
    split_and!; [done..|]. intros j Hj. by rewrite list_lookup_insert_ne.
Qed.

(** C6 at work: the target of the first relayed connection is down. *)
Lemma target_dial_failure_is_isolated_witness :
  let c := Sample.config None in
  let s := Sample.relaying in
  let s' := step c s (RelayStep 0 (DialResult (Fail (Err "refused")))) in
  trace s' = trace s ++
    [(TRelay 0, NetDial (host_port "127.0.0.1" 8080));
     (TRelay 0, LogPrint ("failed to connect to target: " +:+ "refused"));
     (TRelay 0, Close (NetConn 10%nat))] ∧
  sends (trace s') = sends (trace s) ∧
  proc s' = Running ∧ main s' = main s ∧ reader s' = reader s ∧
  deferred s' = deferred s ∧
  length (relays s') = length (relays s) ∧
  (∀ j, j ≠ 0%nat → relays s' !! j = relays s !! j) ∧
  (∀ ins, relay_done 0 (run c s' ins) ∧
     events_of (TRelay 0) (trace (run c s' ins)) =
       events_of (TRelay 0) (trace s')) ∧
  (∀ ins, Forall (λ inp, concerns 0 inp = false) ins →
     same_but 0 (run c s ins) (run c s' ins) ∧
     ∃ es, trace (run c s ins) = trace s ++ es ∧
           trace (run c s' ins) = trace s' ++ es).
Proof.
  apply (target_dial_failure_is_isolated (Sample.config None) Sample.relaying
           0%nat (new_relay 10%nat) (Err "refused")); reflexivity.
Defined.

Lemma dial_ok c s i rl out :
  proc s = Running → relays s !! i = Some rl → rl_pc rl = RlDial →
  step c s (RelayStep i (DialResult (Ok out))) =
    {| proc := Running; main := main s; deferred := deferred s;
       reader := reader s;
       relays := <[i := {| rl_in := rl_in rl; rl_pc := RlWait out;
                           errCh := []; cp_to_in := true;
                           cp_to_out := true |}]> (relays s);
       trace := trace s ++
         [(TRelay i, NetDial (host_port (TargetHost c) (TargetPort c)))] |}.
Proof.
  intros Hp Hi Hpc. destruct s. simpl in *. subst.
  unfold step, relay_step. simpl. by rewrite Hi, Hpc.
Qed.

Lemma copy_data c s i rl d data :
  proc s = Running → relays s !! i = Some rl → copying rl d = true →
  step c s (RelayStep i (CopyData d data)) = does (TCopy i d) [Copied data] s.
Proof.
  intros Hp Hi Hd. unfold step, relay_step. rewrite Hp, Hi, Hd.
  by destruct (rl_pc rl).
Qed.

Lemma copy_result c s i rl d err :
  proc s = Running → relays s !! i = Some rl → copying rl d = true →
  step c s (RelayStep i (CopyResult d err)) =
    set_relays (<[i := cp_done rl d err]> (relays s)) s.
Proof.
  intros Hp Hi Hd. unfold step, relay_step. rewrite Hp, Hi, Hd.
  by destruct (rl_pc rl).
Qed.

Lemma err_awaited c s i rl out :
  proc s = Running → relays s !! i = Some rl →
  rl_pc rl = RlWait out → errCh rl = [] →
  step c s (RelayStep i ErrReceived) = s.
Proof.
  intros Hp Hi Hpc He. unfold step, relay_step. by rewrite Hp, Hi, Hpc, He.
Qed.

Lemma err_received c s i rl out err rest :
  proc s = Running → relays s !! i = Some rl →
  rl_pc rl = RlWait out → errCh rl = err :: rest →
  step c s (RelayStep i ErrReceived) =
    set_relays
      (<[i := {| rl_in := rl_in rl; rl_pc := RlDone; errCh := rest;
                 cp_to_in := cp_to_in rl; cp_to_out := cp_to_out rl |}]>
         (relays s))
      (does (TRelay i)
         ((if reportable err
           then [LogPrint ("failed to copy: " +:+
                           match err with Some e => Error e | None => "" end)]
           else []) ++
          [Close (NetConn out); Close (NetConn (rl_in rl))]) s).
Proof.
  intros Hp Hi Hpc He. unfold step, relay_step. by rewrite Hp, Hi, Hpc, He.
Qed.

(** Relay [i] of a state just updated is what was put there. *)
Ltac relay_lookup :=
  cbn [relays set_relays does]; apply list_lookup_insert_eq;
  rewrite ?length_insert; first [done | lia].

(** C7. A relay whose [net.Dial] to the target succeeds starts its two [cp]
    goroutines, which move bytes in any order, and waits: while neither has
    ended the relay does not move. When one ends, the relay takes its error,
    logs it unless it is nil or [io.EOF], closes the target connection and
    the inbound one, and returns; it does nothing more, whatever the other
    direction does. Had both ended before the relay looked, the first to end
    is the one that counts. *)
Theorem relay_copies_both_ways c s i rl out :
  proc s = Running → relays s !! i = Some rl → rl_pc rl = RlDial →
  let s1 := step c s (RelayStep i (DialResult (Ok out))) in
  let both := {| rl_in := rl_in rl; rl_pc := RlWait out; errCh := [];
                 cp_to_in := true; cp_to_out := true |} in
  let closes := [(TRelay i, Close (NetConn out));
                 (TRelay i, Close (NetConn (rl_in rl)))] in
  let report (err : option error) :=
    match err with
    | Some (Err msg) => [(TRelay i, LogPrint ("failed to copy: " +:+ msg))]
    | Some EOF | None => []
    end in
  (trace s1 = trace s ++
     [(TRelay i, NetDial (host_port (TargetHost c) (TargetPort c)))] ∧
   relays s1 = <[i := both]> (relays s) ∧ proc s1 = Running) ∧
  (∀ d data d' data',
     run c s1 [RelayStep i (CopyData d data); RelayStep i (CopyData d' data')] =
       does (TCopy i d') [Copied data'] (does (TCopy i d) [Copied data] s1)) ∧
  (∀ moves, Forall (λ inp, ∃ d data, inp = RelayStep i (CopyData d data)) moves →
     step c (run c s1 moves) (RelayStep i ErrReceived) = run c s1 moves) ∧
  (∀ d err,
     let s2 := step c s1 (RelayStep i (CopyResult d err)) in
     let s3 := step c s2 (RelayStep i ErrReceived) in
     trace s2 = trace s1 ∧
     trace s3 = trace s1 ++ report err ++ closes ∧
     proc s3 = Running ∧
     ∀ ins, relay_done i (run c s3 ins) ∧
       events_of (TRelay i) (trace (run c s3 ins)) =
         events_of (TRelay i) (trace s3)) ∧
  (∀ d err err',
     let d' := match d with ToIn => ToOut | ToOut => ToIn end in
     trace (run c s1 [RelayStep i (CopyResult d err);
                      RelayStep i (CopyResult d' err');
                      RelayStep i ErrReceived]) =
       trace s1 ++ report err ++ closes).
Proof.
  intros Hp Hi Hpc. rewrite (dial_ok c s i rl out Hp Hi Hpc).
  assert (i < length (relays s))%nat as Hlt by (by eapply lookup_lt_Some).
  set (both := {| rl_in := rl_in rl; rl_pc := RlWait out; errCh := [];
                  cp_to_in := true; cp_to_out := true |}).
  set (s1 := {| proc := Running; main := main s; deferred := deferred s;
                reader := reader s; relays := <[i := both]> (relays s);
                trace := trace s ++
                  [(TRelay i, NetDial (host_port (TargetHost c) (TargetPort c)))] |}).
  assert (relays s1 !! i = Some both) as Hi1 by (by apply list_lookup_insert_eq).
  assert (length (relays s1) = length (relays s)) as Hlen1
    by apply length_insert.
  assert (∀ err, (if reportable err
            then [(TRelay i, LogPrint ("failed to copy: " +:+
                     match err with Some e => Error e | None => "" end))]
            else []) =
          match err with
          | Some (Err msg) => [(TRelay i, LogPrint ("failed to copy: " +:+ msg))]
          | Some EOF | None => []
          end) as Hreport by (by intros [[|msg]|]).
  cbn zeta. split_and!; try done.
  - intros d data d' data'. unfold run. simpl.
    rewrite (copy_data c s1 i both d data eq_refl Hi1) by (by destruct d).
    by rewrite (copy_data c (does (TCopy i d) [Copied data] s1) i both d' data'
                  eq_refl Hi1) by (by destruct d').
  - intros moves Hmoves.
    assert (proc (run c s1 moves) = Running ∧
            relays (run c s1 moves) !! i = Some both) as [Hp' Hi'].
    { induction moves as [|inp moves IH] using rev_ind; [done|].
      apply Forall_app in Hmoves as [Hmoves [(d & data & ->) _]%Forall_cons].
      destruct (IH Hmoves) as [Hp' Hi']. rewrite run_snoc.
      rewrite (copy_data c _ i both d data Hp' Hi') by (by destruct d). done. }
    by apply (err_awaited c _ i both out).
  - intros d err.
    rewrite (copy_result c s1 i both d err eq_refl Hi1) by (by destruct d).
    erewrite (err_received c _ i (cp_done both d err) out err []); try done;
      [|by relay_lookup].
    split_and!.
    + done.
    + cbn [trace proc set_relays does]. rewrite map_app. simpl.
      rewrite <-Hreport. by destruct (reportable err).
    + done.
    + intros ins. apply relay_done_run. eexists.
      split; [by relay_lookup|done].
  - intros d err err'. unfold run. simpl.
    rewrite (copy_result c s1 i both d err eq_refl Hi1) by (by destruct d).
    set (s2 := set_relays (<[i := cp_done both d err]> (relays s1)) s1).
    assert (relays s2 !! i = Some (cp_done both d err)) as Hi2 by relay_lookup.
    rewrite (copy_result c s2 i (cp_done both d err) _ err' eq_refl Hi2)
      by (by destruct d).
    set (s3 := set_relays (<[i := cp_done (cp_done both d err) _ err']>
                             (relays s2)) s2).
    assert (relays s3 !! i = Some (cp_done (cp_done both d err)
              match d with ToIn => ToOut | ToOut => ToIn end err')) as Hi3.
    { subst s3 s2. by relay_lookup. }
    rewrite (err_received c s3 i _ out err [err'] eq_refl Hi3) by done.
    cbn [trace proc set_relays does]. rewrite map_app. simpl.
    rewrite <-Hreport. by destruct (reportable err).
Qed.

(** C7 at work: the target of the first relayed connection answers. *)
Lemma relay_copies_both_ways_witness :
  let c := Sample.config None in
  let s := Sample.relaying in
  let s1 := step c s (RelayStep 0 (DialResult (Ok 11%nat))) in
  let both := {| rl_in := 10%nat; rl_pc := RlWait 11%nat; errCh := [];
                 cp_to_in := true; cp_to_out := true |} in
  let closes := [(TRelay 0, Close (NetConn 11%nat));
                 (TRelay 0, Close (NetConn 10%nat))] in
  let report (err : option error) :=
    match err with
    | Some (Err msg) => [(TRelay 0, LogPrint ("failed to copy: " +:+ msg))]
    | Some EOF | None => []
    end in
  (trace s1 = trace s ++ [(TRelay 0, NetDial (host_port "127.0.0.1" 8080))] ∧
   relays s1 = <[0%nat := both]> (relays s) ∧ proc s1 = Running) ∧
  (∀ d data d' data',
     run c s1 [RelayStep 0 (CopyData d data); RelayStep 0 (CopyData d' data')] =
       does (TCopy 0 d') [Copied data'] (does (TCopy 0 d) [Copied data] s1)) ∧
  (∀ moves, Forall (λ inp, ∃ d data, inp = RelayStep 0 (CopyData d data)) moves →
     step c (run c s1 moves) (RelayStep 0 ErrReceived) = run c s1 moves) ∧
  (∀ d err,
     let s2 := step c s1 (RelayStep 0 (CopyResult d err)) in
     let s3 := step c s2 (RelayStep 0 ErrReceived) in
     trace s2 = trace s1 ∧
     trace s3 = trace s1 ++ report err ++ closes ∧
     proc s3 = Running ∧
     ∀ ins, relay_done 0 (run c s3 ins) ∧
       events_of (TRelay 0) (trace (run c s3 ins)) =
         events_of (TRelay 0) (trace s3)) ∧
  (∀ d err err',
     let d' := match d with ToIn => ToOut | ToOut => ToIn end in
     trace (run c s1 [RelayStep 0 (CopyResult d err);
                      RelayStep 0 (CopyResult d' err');
                      RelayStep 0 ErrReceived]) =
       trace s1 ++ report err ++ closes).
Proof.
  apply (relay_copies_both_ways (Sample.config None) Sample.relaying
           0%nat (new_relay 10%nat) 11%nat); reflexivity.
Defined.

(** ** The channel of a relay *)

Lemma errCh_room_step c s i :
  Forall errCh_room (relays s) → Forall errCh_room (relays (step c s i)).
Proof.
  intros Hall. destruct s as [p m d r rl tr]. simpl in *.
  by_cases; try done.
  all: try (apply Forall_app; split; [done|]; repeat constructor;
            unfold errCh_room; simpl; lia).
  all: apply Forall_insert; [done|].
  all: match goal with
       | Hall : Forall errCh_room ?l, H : ?l !! _ = Some _ |- _ =>
           pose proof (Forall_lookup_1 _ _ _ _ Hall H) as Hroom
       end.
  all: unfold errCh_room, cp_done, copying in *; simpl in *.
  all: rewrite ?length_app; simpl.
  all: repeat match goal with
       | H : errCh _ = _ |- _ => rewrite H in Hroom; simpl in Hroom
       | d : Dir |- _ => destruct d
       | H : cp_to_in _ = _ |- _ => rewrite H in *
       | H : cp_to_out _ = _ |- _ => rewrite H in *
       end.
  all: try lia.
  all: repeat match goal with
       | |- context [if ?b then _ else _] => destruct b
       end; lia.
Qed.

(** A [cp] goroutine never blocks in [errCh <- err]: in every state of a
    session, no relay holds more than two errors. *)
Lemma errCh_never_full c w ins :
  Forall (λ rl, (length (errCh rl) ≤ 2)%nat) (relays (Create c w ins)).
Proof.
  assert (Forall errCh_room (relays (Create c w ins))) as Hall.
  { unfold Create.
    apply (run_invariant (λ s, Forall errCh_room (relays s))).
    - rewrite relays_init. constructor.
    - intros s i. apply errCh_room_step. }
  eapply Forall_impl; [exact Hall|].
  intros rl Hroom. unfold errCh_room in Hroom. lia.
Qed.

(** * Further properties *)

(** ** What the sequential part does, case by case *)

(** Case analysis on every library call of the sequential part. *)
Ltac setup_cases :=
  unfold Create_setup, connect_via_proxy, ssh.Dial, ssh.NewClientConn,
    ssh.FixedHostKey, client_config, or_Fatalf, Fatalf, emit,
    mbind, M_bind, mret, M_ret;
  simpl; repeat (inner_match; simpl).

(** A membership in a list written out. *)
Ltac elem_here :=
  repeat first [apply list_elem_of_here | apply list_elem_of_further].

Lemma step_extends c s i : ∃ es, trace (step c s i) = trace s ++ es.
Proof.
  assert (∃ es, trace s = trace s ++ es) as Hnil
    by (exists []; by rewrite app_nil_r).
  destruct s as [p m d r rl tr]. simpl in *.
  by_cases; rewrite <-?app_assoc; eauto.
Qed.

Lemma run_extends c s ins : ∃ es, trace (run c s ins) = trace s ++ es.
Proof.
  induction ins as [|i ins IH] using rev_ind.
  - exists []. by rewrite app_nil_r.
  - destruct IH as [es Hes]. rewrite run_snoc.
    destruct (step_extends c (run c s ins) i) as [es' Hes'].
    exists (es ++ es'). by rewrite Hes', Hes, app_assoc.
Qed.

Lemma FixedHostKey_accepts pinned key :
  ssh.FixedHostKey pinned key = None ↔ ssh.Marshal key = ssh.Marshal pinned.
Proof.
  unfold ssh.FixedHostKey.
  destruct (String.eqb_spec (ssh.Marshal key) (ssh.Marshal pinned)); by split.
Qed.

(** An established session went through all of: the pinned key parsed,
    a handshake in which the peer presented that key and accepted the
    authentication, and a session opened. *)
Lemma setup_established c w t d pipe :
  Create_setup c w = (t, Return (Established d pipe)) →
  d = SshSession :: SshClient :: proxy_deferred w ∧
  pipe = match StdoutPipe w with Ok _ => true | Fail _ => false end ∧
  NewSession w = Ok tt ∧
  ∃ pinned tcp key,
    ParseAuthorizedKey w hostBytes = Ok pinned ∧
    Handshake tcp (Host c) ∈ t ∧
    ssh.kex (peer w tcp) = Ok key ∧
    ssh.Marshal key = ssh.Marshal pinned ∧
    ssh.auth (peer w tcp) = None.
Proof.
  unfold proxy_deferred. setup_cases; intros [= <- <- <-].
  all: repeat match goal with
       | H : String.eqb _ _ = true |- _ => apply String.eqb_eq in H
       | H : ssh.FixedHostKey _ _ = None |- _ =>
           apply FixedHostKey_accepts in H
       | u : unit |- _ => destruct u
       end.
  all: split_and!; try done.
  all: eexists _, _, _; split_and!; try eassumption; try done.
  all: elem_here.
Qed.

Lemma setup_connect_failed c w t d :
  Create_setup c w = (t, Return (ConnectFailed d)) →
  d = [] ∧ Getenv w "http_proxy" = "".
Proof.
  setup_cases; intros [= <- <-]; split; try done.
  all: by apply String.eqb_eq, negb_false_iff.
Qed.

Lemma init_established c w :
  main (init c w) = MListen →
  ∃ t d pipe, Create_setup c w = (t, Return (Established d pipe)) ∧
    init c w = {| proc := Running; main := MListen; deferred := d;
                  reader := RdRead pipe; relays := [];
                  trace := map (pair TMain) t |}.
Proof.
  unfold init. destruct (Create_setup c w) as [t [[d|d pipe]|]]; try done.
  intros _. by eexists _, _, _.
Qed.

(** A listener, or a request for one, means the session was established. *)
Lemma listener_established c w ins :
  main (Create c w ins) = MListen ∨ main (Create c w ins) = MAccept ∨
  (∃ t addr, (t, Listen addr) ∈ trace (Create c w ins)) →
  main (init c w) = MListen.
Proof.
  intros H.
  assert (main (init c w) = MListen ∨ main (init c w) ≠ MListen) as [|Hne].
  { destruct (init_cases c w) as [(_ & -> & _)|[(_ & -> & _)|(_ & -> & _)]];
      by eauto. }
  { done. }
  exfalso.
  destruct (no_listener_run c _ ins (no_listener_init c w Hne)) as [Hm Hl].
  fold (Create c w ins) in Hm, Hl.
  destruct H as [H|[H|(t & addr & H)]].
  - rewrite H in Hm. by destruct Hm as [?|[?|?]].
  - rewrite H in Hm. by destruct Hm as [?|[?|?]].
  - by eapply Hl.
Qed.

(** ** The pinned key *)

(** X1. Whenever the attempt has a remote listener, or has so much as asked
    for one, the pinned key had parsed, and the peer of the handshake had
    presented exactly that key and accepted the authentication: no listener
    is ever requested from a relay that showed another key. *)
Theorem listener_only_from_pinned_relay c w ins :
  main (Create c w ins) = MListen ∨ main (Create c w ins) = MAccept ∨
  (∃ t addr, (t, Listen addr) ∈ trace (Create c w ins)) →
  ∃ pinned tcp key,
    ParseAuthorizedKey w hostBytes = Ok pinned ∧
    (TMain, Handshake tcp (Host c)) ∈ trace (init c w) ∧
    ssh.kex (peer w tcp) = Ok key ∧
    ssh.Marshal key = ssh.Marshal pinned ∧
    ssh.auth (peer w tcp) = None.
Proof.
  intros H%listener_established.
  destruct (init_established c w H) as (t & d & pipe & Hsetup & ->).
  destruct (setup_established c w t d pipe Hsetup)
    as (_ & _ & _ & pinned & tcp & key & ? & Hin & ? & ? & ?).
  exists pinned, tcp, key. split_and!; try done.
  simpl. by apply (list_elem_of_fmap_2 (pair TMain)).
Qed.

(** X1 at work on a session that is accepting connections. *)
Lemma listener_only_from_pinned_relay_witness :
  ∃ pinned tcp key,
    ParseAuthorizedKey (Sample.direct (Ok 3%nat) Sample.relay) hostBytes
      = Ok pinned ∧
    (TMain, Handshake tcp "relay.example:22") ∈
      trace (init (Sample.config None) (Sample.direct (Ok 3%nat) Sample.relay)) ∧
    ssh.kex (peer (Sample.direct (Ok 3%nat) Sample.relay) tcp) = Ok key ∧
    ssh.Marshal key = ssh.Marshal pinned ∧
    ssh.auth (peer (Sample.direct (Ok 3%nat) Sample.relay) tcp) = None.
Proof.
  apply (listener_only_from_pinned_relay (Sample.config None)
           (Sample.direct (Ok 3%nat) Sample.relay) [ListenResult (Ok tt)]).
  right. left. reflexivity.
Defined.

(** ** Errors before the handshake *)

(** X2. When the pinned key does not parse, the process exits on that
    error before anything else is done: nothing is dialed, with or without a
    proxy, and nothing is sent. *)
Theorem unparsable_key_is_fatal c w e :
  ParseAuthorizedKey w hostBytes = Fail e →
  ∀ ins, Create c w ins =
    {| proc := Exit1; main := MSetup; deferred := []; reader := RdNone;
       relays := [];
       trace := [(TMain, Fatal ("failed to parse host key: " +:+ Error e))] |}.
Proof.
  intros Hkey ins. unfold Create.
  assert (init c w =
    {| proc := Exit1; main := MSetup; deferred := []; reader := RdNone;
       relays := [];
       trace := [(TMain, Fatal ("failed to parse host key: " +:+ Error e))] |})
    as ->.
  { unfold init, Create_setup. by rewrite Hkey. }
  by apply run_stopped.
Qed.

(** X2 at work: the key does not parse, and nothing that is scheduled
    afterwards happens. *)
Lemma unparsable_key_is_fatal_witness :
  Create (Sample.config None) Sample.unparsable
    [ListenResult (Ok tt); Received TMain] =
    {| proc := Exit1; main := MSetup; deferred := []; reader := RdNone;
       relays := [];
       trace := [(TMain, Fatal "failed to parse host key: ssh: no key found")] |}.
Proof.
  apply (unparsable_key_is_fatal (Sample.config None) Sample.unparsable
           (Err "ssh: no key found") eq_refl
           [ListenResult (Ok tt); Received TMain]).
Defined.

(** The request of lines 79-89, as written on the connection. *)
Lemma connReq_is_connect_request c u :
  match url.User u with
  | Some ui =>
      if url.passwordSet ui
      then http.SetBasicAuth
             {| http.Method := "CONNECT";
                http.URL := {| url.User := None; url.Host := "";
                               url.Path := Host c |};
                http.Host := Host c; http.Authorization := None |}
             (url.username ui) (url.password ui)
      else {| http.Method := "CONNECT";
              http.URL := {| url.User := None; url.Host := "";
                             url.Path := Host c |};
              http.Host := Host c; http.Authorization := None |}
  | None => {| http.Method := "CONNECT";
               http.URL := {| url.User := None; url.Host := "";
                              url.Path := Host c |};
               http.Host := Host c; http.Authorization := None |}
  end = connect_request c u.
Proof.
  unfold connect_request. destruct (url.User u) as [ui|]; [|done].
  by destruct (url.passwordSet ui).
Qed.

(** X3. With a proxy: when the proxy URL does not parse, the process exits
    and nothing is dialed; when the answer to CONNECT cannot be read, the
    process exits after the request was written and no handshake is
    attempted. *)
Theorem proxy_errors_stop_before_handshake c w pinned e :
  ParseAuthorizedKey w hostBytes = Ok pinned →
  Getenv w "http_proxy" ≠ "" →
  (url_Parse w (Getenv w "http_proxy") = Fail e →
   ∀ ins, Create c w ins =
     {| proc := Exit1; main := MSetup; deferred := []; reader := RdNone;
        relays := [];
        trace := [(TMain, Fatal ("cannot open new session: " +:+ Error e))] |}) ∧
  (∀ u tcp, url_Parse w (Getenv w "http_proxy") = Ok u →
   net_Dial w (url.Hostname u) = Ok tcp →
   http_ReadResponse w tcp (connect_request c u) = Fail e →
   ∀ ins, Create c w ins =
     {| proc := Exit1; main := MSetup; deferred := []; reader := RdNone;
        relays := [];
        trace := [(TMain, NetDial (url.Hostname u));
                  (TMain, WriteRequest tcp (connect_request c u));
                  (TMain, Fatal ("cannot open new session: " +:+ Error e))] |}).
Proof.
  intros Hkey Hproxy. split.
  - intros Hurl ins. unfold Create. rewrite run_stopped; unfold init,
      Create_setup, connect_via_proxy; rewrite Hkey; simpl;
      rewrite proxy_set by done; rewrite Hurl; done.
  - intros u tcp Hurl Hdial Hresp ins. unfold Create.
    rewrite run_stopped; unfold init, Create_setup, connect_via_proxy;
      rewrite Hkey; simpl; rewrite proxy_set by done; rewrite Hurl; simpl;
      rewrite Hdial; simpl; rewrite connReq_is_connect_request, Hresp; done.
Qed.

(** X3 at work: a proxy URL that does not parse, a proxy that answers
    garbage. *)
Lemma proxy_errors_stop_before_handshake_witness :
  (∀ ins, Create (Sample.config None) Sample.bad_proxy_url ins =
     {| proc := Exit1; main := MSetup; deferred := []; reader := RdNone;
        relays := [];
        trace := [(TMain, Fatal ("cannot open new session: " +:+
                                  "invalid URL escape"))] |}) ∧
  (∀ ins, Create (Sample.config None)
            (Sample.garbled Sample.proxy_url_with_password) ins =
     {| proc := Exit1; main := MSetup; deferred := []; reader := RdNone;
        relays := [];
        trace := [(TMain, NetDial "proxy.example:3128");
                  (TMain, WriteRequest 3%nat
                     (connect_request (Sample.config None)
                        Sample.proxy_url_with_password));
                  (TMain, Fatal ("cannot open new session: " +:+
                                  "malformed HTTP response"))] |}).
Proof.
  split.
  - exact (proj1 (proxy_errors_stop_before_handshake (Sample.config None)
             Sample.bad_proxy_url Sample.pinned (Err "invalid URL escape")
             eq_refl ltac:(discriminate)) eq_refl).
  - exact (proj2 (proxy_errors_stop_before_handshake (Sample.config None)
             (Sample.garbled Sample.proxy_url_with_password) Sample.pinned
             (Err "malformed HTTP response") eq_refl ltac:(discriminate))
             Sample.proxy_url_with_password 3%nat eq_refl eq_refl eq_refl).
Defined.

Lemma init_connect_failed c w :
  main (init c w) = MSend →
  ∃ t d, Create_setup c w = (t, Return (ConnectFailed d)).
Proof.
  unfold init. destruct (Create_setup c w) as [t [[d|d pipe]|]]; try done.
  intros _. by eexists _, _.
Qed.

(** X4. With a proxy, the goroutine running [Create] never signals: line 107
    is not reached, whatever fails, and in the whole attempt nothing is sent
    on the caller's channel but by the reader. *)
Theorem no_signal_from_Create_with_proxy c w ins :
  Getenv w "http_proxy" ≠ "" →
  main (Create c w ins) ≠ MSend ∧
  (∀ code, (TMain, Send code) ∉ trace (Create c w ins)) ∧
  (∀ t e, (t, e) ∈ trace (Create c w ins) → is_Send (t, e) = true →
     t = TReader).
Proof.
  intros Hproxy.
  assert (main (init c w) ≠ MSend) as Hinit.
  { intros (t & d & Hsetup)%init_connect_failed.
    by destruct (setup_connect_failed c w t d Hsetup) as [_ ?]. }
  destruct (signal_inv_run c w ins) as [_ Ho Hm _].
  split_and!.
  - intros H. by apply Hinit, Hm.
  - intros code Hin. by destruct (Ho _ _ Hin eq_refl) as [_ [[_ ?]|[? _]]].
  - intros t e Hin Hs. by destruct (Ho _ _ Hin Hs) as [_ [[_ ?]|[? _]]].
Qed.

(** X4 at work: behind a proxy, the control channel ends. *)
Lemma no_signal_from_Create_with_proxy_witness :
  let s := Create (Sample.config None)
             (Sample.proxied (Ok 3%nat) Sample.relay 200)
             [ReadLineResult (Fail EOF); Received TReader; Received TMain] in
  main s ≠ MSend ∧
  (∀ code, (TMain, Send code) ∉ trace s) ∧
  (∀ t e, (t, e) ∈ trace s → is_Send (t, e) = true → t = TReader).
Proof.
  apply (no_signal_from_Create_with_proxy (Sample.config None)
           (Sample.proxied (Ok 3%nat) Sample.relay 200)).
  discriminate.
Defined.

(** ** The request to the proxy *)

(** X5. With a proxy that takes the connection, the first thing written on
    it is one CONNECT request for [c.Host]. The request carries Basic
    credentials exactly when the proxy URL has a user with a password, and
    they are that user and password; a user alone sends none. *)
Theorem connect_request_is_written c w pinned u tcp :
  ParseAuthorizedKey w hostBytes = Ok pinned →
  Getenv w "http_proxy" ≠ "" →
  url_Parse w (Getenv w "http_proxy") = Ok u →
  net_Dial w (url.Hostname u) = Ok tcp →
  (∃ rest, (Create_setup c w).1 =
     NetDial (url.Hostname u) :: WriteRequest tcp (connect_request c u) :: rest ∧
     ∀ tcp' r, WriteRequest tcp' r ∉ rest) ∧
  http.Method (connect_request c u) = "CONNECT" ∧
  http.Host (connect_request c u) = Host c ∧
  url.Path (http.URL (connect_request c u)) = Host c ∧
  (∀ user pass,
     http.Authorization (connect_request c u) = Some (user, pass) ↔
     ∃ ui, url.User u = Some ui ∧ url.passwordSet ui = true ∧
           url.username ui = user ∧ url.password ui = pass).
Proof.
  intros Hkey Hproxy Hurl Hdial. split_and!; try done.
  - unfold Create_setup. rewrite Hkey. simpl. rewrite proxy_set by done.
    unfold connect_via_proxy. rewrite Hurl. simpl. rewrite Hdial. simpl.
    rewrite connReq_is_connect_request.
    generalize (connect_request c u) (url.Hostname u). intros req a.
    unfold ssh.NewClientConn, ssh.FixedHostKey, or_Fatalf, Fatalf, emit,
      mbind, M_bind, mret, M_ret. simpl.
    repeat (inner_match; simpl).
    all: eexists; split; [reflexivity|].
    all: intros tcp' r Hin; split_elem Hin; simplify_eq.
  - intros user pass. unfold connect_request. simpl. split.
    + destruct (url.User u) as [ui|]; [|done].
      destruct (url.passwordSet ui) eqn:Hset; [|done].
      intros [= <- <-]. by exists ui.
    + intros (ui & -> & -> & <- & <-). done.
Qed.

(** X5 at work on a proxy URL with a password. *)
Lemma connect_request_is_written_witness :
  (∃ rest,
     (Create_setup (Sample.config None)
        (Sample.garbled Sample.proxy_url_with_password)).1 =
       NetDial (url.Hostname Sample.proxy_url_with_password) ::
       WriteRequest 3%nat
         (connect_request (Sample.config None) Sample.proxy_url_with_password) ::
       rest ∧
     ∀ tcp' r, WriteRequest tcp' r ∉ rest) ∧
  http.Method (connect_request (Sample.config None)
                 Sample.proxy_url_with_password) = "CONNECT" ∧
  http.Host (connect_request (Sample.config None)
               Sample.proxy_url_with_password) = "relay.example:22" ∧
  url.Path (http.URL (connect_request (Sample.config None)
                        Sample.proxy_url_with_password)) = "relay.example:22" ∧
  (∀ user pass,
     http.Authorization (connect_request (Sample.config None)
                           Sample.proxy_url_with_password) = Some (user, pass) ↔
     ∃ ui, url.User Sample.proxy_url_with_password = Some ui ∧
           url.passwordSet ui = true ∧
           url.username ui = user ∧ url.password ui = pass).
Proof.
  apply (connect_request_is_written (Sample.config None)
           (Sample.garbled Sample.proxy_url_with_password) Sample.pinned
           Sample.proxy_url_with_password 3%nat);
    [reflexivity|discriminate|reflexivity..].
Defined.

(** ** The banner *)


(** ** A session without an output pipe *)


(** ** The listener comes first *)

Lemma closes_not_inbound l :
  Forall (λ x, inbound_event x = false) (map (pair TMain) (map Close l)).
Proof. induction l; by constructor. Qed.

Lemma listen_first_step c s i :
  (main s ≠ MAccept ∧ relays s = [] ∧
   Forall (λ x, inbound_event x = false) (trace s)) ∨
  (∃ tr1 tr2, trace s =
     tr1 ++ (TMain, Listen (host_port (RemoteHost c) (RemotePort c))) :: tr2 ∧
     Forall (λ x, inbound_event x = false) tr1) →
  (main (step c s i) ≠ MAccept ∧ relays (step c s i) = [] ∧
   Forall (λ x, inbound_event x = false) (trace (step c s i))) ∨
  (∃ tr1 tr2, trace (step c s i) =
     tr1 ++ (TMain, Listen (host_port (RemoteHost c) (RemotePort c))) :: tr2 ∧
     Forall (λ x, inbound_event x = false) tr1).
Proof.
  intros [(Hm & Hrl & Htr)|(tr1 & tr2 & Htr & Hno)].
  - destruct s as [p m d r rl tr]. simpl in *. subst.
    by_cases; try (left; by split_and!).
    all: try (left; split_and!; [done..|];
              repeat (apply Forall_app; split);
              first [done | apply closes_not_inbound | by repeat constructor]).
    right. exists tr, []. done.
  - right. destruct (step_extends c s i) as [es ->].
    exists tr1, (tr2 ++ es). split; [|done]. by rewrite Htr, <-app_assoc.
Qed.

(** X8. Nothing is done with an inbound connection before [client.Listen]
    was called: in every trace of an attempt, what comes before the request
    for the remote listener holds no hook start and no move of a relay, and
    without that request there is no relay at all. *)
Theorem listen_before_inbound c w ins :
  (relays (Create c w ins) = [] ∧
   Forall (λ x, inbound_event x = false) (trace (Create c w ins))) ∨
  (∃ tr1 tr2, trace (Create c w ins) =
     tr1 ++ (TMain, Listen (host_port (RemoteHost c) (RemotePort c))) :: tr2 ∧
     Forall (λ x, inbound_event x = false) tr1).
Proof.
  assert ((main (Create c w ins) ≠ MAccept ∧ relays (Create c w ins) = [] ∧
           Forall (λ x, inbound_event x = false) (trace (Create c w ins))) ∨
          (∃ tr1 tr2, trace (Create c w ins) =
             tr1 ++ (TMain, Listen (host_port (RemoteHost c) (RemotePort c)))
                 :: tr2 ∧
             Forall (λ x, inbound_event x = false) tr1)) as [(_ & ? & ?)|?];
    [|by left|by right].
  unfold Create. apply (run_invariant (λ s,
    (main s ≠ MAccept ∧ relays s = [] ∧
     Forall (λ x, inbound_event x = false) (trace s)) ∨
    (∃ tr1 tr2, trace s =
       tr1 ++ (TMain, Listen (host_port (RemoteHost c) (RemotePort c))) :: tr2 ∧
       Forall (λ x, inbound_event x = false) tr1))).
  - left. split_and!.
    + destruct (init_cases c w) as [(_ & -> & _)|[(_ & -> & _)|(_ & -> & _)]];
        done.
    + apply relays_init.
    + apply Forall_forall. intros [t e] Hin.
      apply init_events in Hin as [-> He]. by destruct e.
  - intros s i. apply listen_first_step.
Qed.

(** ** Nothing after [log.Fatalf] *)





(** ** The deferred calls *)

Lemma deferred_closes_app tr1 tr2 :
  deferred_closes (tr1 ++ tr2) = deferred_closes tr1 ++ deferred_closes tr2.
Proof. apply List.filter_app. Qed.

Lemma deferred_closes_setup t :
  Forall (λ e, setup_event e = true) t →
  deferred_closes (map (pair TMain) t) = [].
Proof.
  induction 1 as [|e t He _ IH]; [done|].
  unfold deferred_closes in *. simpl. rewrite IH.
  by destruct e as [| | | | | | | | | | |[]].
Qed.

Lemma deferred_inv_init c w : deferred_inv w (init c w) (init c w).
Proof.
  assert (deferred_closes (trace (init c w)) = []) as Hno.
  { rewrite trace_init. apply deferred_closes_setup, only_Create_setup. }
  unfold deferred_inv. rewrite Hno.
  destruct (main (init c w)) eqn:Hm; try done.
  - destruct (init_connect_failed c w Hm) as (t & d & Hsetup).
    destruct (setup_connect_failed c w t d Hsetup) as [-> _].
    split_and!; [done| |done]. unfold init. by rewrite Hsetup.
  - destruct (init_established c w Hm) as (t & d & pipe & Hsetup & ->).
    by destruct (setup_established c w t d pipe Hsetup) as (-> & _).
  - by destruct (init_cases c w) as [(_ & ? & _)|[(_ & ? & _)|(_ & ? & _)]];
      congruence.
  - by destruct (init_cases c w) as [(_ & ? & _)|[(_ & ? & _)|(_ & ? & _)]];
      congruence.
Qed.

Lemma deferred_inv_step c w s0 s i :
  deferred_inv w s0 s → deferred_inv w s0 (step c s i).
Proof.
  unfold deferred_inv. destruct s as [p m d r rl tr]. simpl.
  by_cases; try done.
  all: rewrite ?deferred_closes_app; simpl; rewrite ?app_nil_r; try done.
  all: try (intros (? & -> & ->); simpl; by eauto).
  intros (? & -> & ->). right. split; [done|].
  unfold session_deferred, proxy_deferred. simpl. by destruct (negb _).
Qed.

(** X10. The deferred calls of [Create] run when it returns and at no other
    time, each once, last registered first: after an [Accept] failure the
    listener, the session and the client are closed in this order, then the
    body of the proxy's answer if there was a proxy; after a failed
    connection nothing was deferred; and as long as [Create] has not
    returned, also when the process exits, none of them is closed. *)
Theorem deferred_calls_run_on_return c w ins :
  (main (Create c w ins) ≠ MReturned →
   deferred_closes (trace (Create c w ins)) = []) ∧
  (main (Create c w ins) = MReturned → main (init c w) = MListen →
   deferred_closes (trace (Create c w ins)) =
     [(TMain, Close RemoteListener); (TMain, Close SshSession);
      (TMain, Close SshClient)] ++
     map (pair TMain) (map Close (proxy_deferred w))) ∧
  (main (Create c w ins) = MReturned → main (init c w) = MSend →
   deferred_closes (trace (Create c w ins)) = []).
Proof.
  assert (deferred_inv w (init c w) (Create c w ins)) as Hinv.
  { unfold Create. apply (run_invariant (deferred_inv w (init c w))).
    - apply deferred_inv_init.
    - intros s i. apply deferred_inv_step. }
  unfold deferred_inv in Hinv.
  destruct (main (Create c w ins)); split_and!; try done;
    try (by intros; destruct Hinv as (_ & _ & ?)).
  - intros _ Hm. destruct Hinv as [[? ?]|[_ ->]]; [congruence|done].
  - intros _ Hm. destruct Hinv as [[_ ?]|[? _]]; [done|congruence].
Qed.

(** ** When [Create] returns *)

(** X11. In an established session [Create] returns only when [ln.Accept]
    fails. Whatever else happens, the end of the control channel and the
    signal of the reader included, it stays in the accept loop; and if it
    has returned, it has logged a failed [Accept]. *)
Theorem Create_returns_on_Accept_failure c w ins :
  main (init c w) = MListen →
  (Forall (λ i, ∀ e, i ≠ AcceptResult (Fail e)) ins →
   main (Create c w ins) = MListen ∨ main (Create c w ins) = MAccept) ∧
  (main (Create c w ins) = MReturned →
   ∃ e, AcceptResult (Fail e) ∈ ins ∧
     (TMain, LogPrint ("failed to accept connection: " +:+ Error e))
       ∈ trace (Create c w ins)).
Proof.
  intros Hm. split.
  - intros Hins. unfold Create.
    induction ins as [|i ins IH] using rev_ind; [by left|].
    apply Forall_app in Hins as [Hins [Hi _]%Forall_cons].
    specialize (IH Hins). rewrite run_snoc.
    destruct (run c (init c w) ins) as [p m d r rl tr]. simpl in *.
    destruct IH as [->| ->]; by_cases; eauto. by destruct (Hi e).
  - unfold Create. induction ins as [|i ins IH] using rev_ind.
    { simpl. by rewrite Hm. }
    rewrite run_snoc.
    destruct (step_extends c (run c (init c w) ins) i) as [es Hes].
    assert (main (run c (init c w) ins) = MReturned ∨
            main (run c (init c w) ins) ≠ MReturned) as [Hret|Hnot].
    { destruct (main (run c (init c w) ins)); by eauto. }
    + intros _. destruct (IH Hret) as (e & Hin & Htr).
      exists e. split; [apply elem_of_app; by left|].
      rewrite Hes. apply elem_of_app. by left.
    + assert (main (run c (init c w) ins) ≠ MSend) as Hns.
      { intros Hs. destruct (signal_inv_run c w ins) as [_ _ Hmain _].
        unfold Create in Hmain. specialize (Hmain Hs). congruence. }
      clear IH Hes.
      destruct (run c (init c w) ins) as [p m d r rl tr]. simpl in *.
      by_cases; try done.
      intros _. exists e. split; [apply elem_of_app; right; elem_here|].
      rewrite !elem_of_app. left. right. elem_here.
Qed.

(** X11 at work: the control channel ends and the signal is taken, and
    [Create] is still accepting; the listener breaks, and it returns. *)
Lemma Create_returns_on_Accept_failure_witness :
  (main (Create (Sample.config None) (Sample.direct (Ok 3%nat) Sample.relay)
           [ListenResult (Ok tt); ReadLineResult (Fail EOF); Received TReader])
     = MListen ∨
   main (Create (Sample.config None) (Sample.direct (Ok 3%nat) Sample.relay)
           [ListenResult (Ok tt); ReadLineResult (Fail EOF); Received TReader])
     = MAccept) ∧
  ∃ e, AcceptResult (Fail e) ∈
         [ListenResult (Ok tt); AcceptResult (Fail (Err "closed"))] ∧
    (TMain, LogPrint ("failed to accept connection: " +:+ Error e)) ∈
      trace (Create (Sample.config None) (Sample.direct (Ok 3%nat) Sample.relay)
               [ListenResult (Ok tt); AcceptResult (Fail (Err "closed"))]).
Proof.
  split.
  - apply (Create_returns_on_Accept_failure (Sample.config None)
             (Sample.direct (Ok 3%nat) Sample.relay)
             [ListenResult (Ok tt); ReadLineResult (Fail EOF); Received TReader]
             eq_refl).
    repeat constructor; discriminate.
  - apply (Create_returns_on_Accept_failure (Sample.config None)
             (Sample.direct (Ok 3%nat) Sample.relay)
             [ListenResult (Ok tt); AcceptResult (Fail (Err "closed"))]
             eq_refl).
    reflexivity.
Defined.

(** ** The accept loop *)

(** X12. The accept loop gives each connection it accepts to one handler,
    in the order of arrival, and is back in [ln.Accept]: with a hook, one
    [go] of the hook per connection and no relay; without, one new relay per
    connection, about to dial, and nothing else done yet. *)
Theorem accept_loop_hands_over_each_connection c s conns :
  proc s = Running → main s = MAccept →
  run c s (map (λ inb, AcceptResult (Ok inb)) conns) =
    match InBoundConnectionHook c with
    | Some _ => does TMain (map GoHook conns) s
    | None => set_relays (relays s ++ map new_relay conns) s
    end.
Proof.
  destruct (InBoundConnectionHook c) as [h|] eqn:Hh.
  - revert s. induction conns as [|inb conns IH]; intros s Hp Hm.
    + destruct s. unfold run, does. simpl. rewrite app_nil_r. reflexivity.
    + unfold run in *. simpl. rewrite (hooked c h s inb Hh Hp Hm).
      rewrite IH by done. destruct s. simpl in *. subst.
      unfold does. simpl. by rewrite <-app_assoc.
  - revert s. induction conns as [|inb conns IH]; intros s Hp Hm.
    + destruct s. unfold run, set_relays. simpl. rewrite app_nil_r.
      reflexivity.
    + assert (step c s (AcceptResult (Ok inb)) =
              set_relays (relays s ++ [new_relay inb]) s) as Hstep.
      { destruct s. simpl in *. subst. unfold step, main_step. simpl.
        by rewrite Hh. }
      unfold run in *. simpl. rewrite Hstep.
      rewrite IH by (by destruct s). destruct s. simpl in *. subst.
      unfold set_relays. simpl. by rewrite <-app_assoc.
Qed.

(** X12 at work: three connections arrive, without and with a hook. *)
Lemma accept_loop_hands_over_each_connection_witness :
  run (Sample.config None) (Sample.listening None)
    (map (λ inb, AcceptResult (Ok inb)) [10; 11; 12]%nat) =
    set_relays (map new_relay [10; 11; 12]%nat) (Sample.listening None) ∧
  run (Sample.config (Some (λ _, None))) (Sample.listening (Some (λ _, None)))
    (map (λ inb, AcceptResult (Ok inb)) [10; 11; 12]%nat) =
    does TMain [GoHook 10%nat; GoHook 11%nat; GoHook 12%nat]
      (Sample.listening (Some (λ _, None))).
Proof.
  split.
  - apply (accept_loop_hands_over_each_connection (Sample.config None)
             (Sample.listening None) [10; 11; 12]%nat); reflexivity.
  - apply (accept_loop_hands_over_each_connection
             (Sample.config (Some (λ _, None)))
             (Sample.listening (Some (λ _, None))) [10; 11; 12]%nat);
      reflexivity.
Defined.

(** ** What a relay opens, it closes *)





(** ** The channel of a relay has room *)

(** X14. A [cp] goroutine never blocks in [errCh <- err]: in every state of
    an attempt, what a relay's [errCh] holds and what its [cp] goroutines
    still running will send fit in its capacity of 2. *)
Theorem errCh_has_room c w ins :
  Forall errCh_room (relays (Create c w ins)).
Proof.
  unfold Create. apply (run_invariant (λ s, Forall errCh_room (relays s))).
  - rewrite relays_init. constructor.
  - intros s i. apply errCh_room_step.
Qed.

(** ** A connection without a session *)

(** X15. Without a proxy, when the connection is made and
    [client.NewSession] fails, the process exits on that error: no reader is
    started, no listener requested, nothing sent, and the client just
    obtained is not closed. *)
Theorem session_failure_is_fatal c w pinned t cl e :
  ParseAuthorizedKey w hostBytes = Ok pinned →
  Getenv w "http_proxy" = "" →
  ssh.Dial (net_Dial w) (peer w) (Host c) (client_config c pinned)
    = (t, Return (Ok cl)) →
  NewSession w = Fail e →
  ∀ ins, Create c w ins =
    {| proc := Exit1; main := MSetup; deferred := []; reader := RdNone;
       relays := [];
       trace := map (pair TMain)
                  (t ++ [Fatal ("failed to create session: " +:+ Error e)]) |}.
Proof.
  intros Hkey Hproxy Hdial Hsess ins. unfold Create.
  assert (init c w =
    {| proc := Exit1; main := MSetup; deferred := []; reader := RdNone;
       relays := [];
       trace := map (pair TMain)
                  (t ++ [Fatal ("failed to create session: " +:+ Error e)]) |})
    as ->.
  { unfold init, Create_setup. rewrite Hkey, Hproxy. simpl.
    rewrite Hdial. simpl. rewrite Hsess. simpl. by rewrite !app_nil_r. }
  by apply run_stopped.
Qed.

(** X15 at work on a relay that refuses the session. *)
Lemma session_failure_is_fatal_witness :
  Create (Sample.config None) Sample.sessionless
    [ListenResult (Ok tt); ReadLineResult (Fail EOF)] =
    {| proc := Exit1; main := MSetup; deferred := []; reader := RdNone;
       relays := [];
       trace := map (pair TMain)
         ([NetDial "relay.example:22"; Handshake 3%nat "relay.example:22";
           Print "hello"] ++
          [Fatal ("failed to create session: " +:+
                  "ssh: rejected: administratively prohibited")]) |}.
Proof.
  apply (session_failure_is_fatal (Sample.config None) Sample.sessionless
           Sample.pinned
           [NetDial "relay.example:22"; Handshake 3%nat "relay.example:22";
            Print "hello"]
           {| ssh.conn := 3%nat |}
           (Err "ssh: rejected: administratively prohibited")
           eq_refl eq_refl eq_refl eq_refl
           [ListenResult (Ok tt); ReadLineResult (Fail EOF)]).
Defined.

(** ** The lines of the control channel *)

(** X16. The reader prints the lines it reads in the order it reads them,
    each followed by a newline, and is back in [ReadLine] after each: it
    does nothing else as long as lines come. *)
Theorem reader_prints_lines_in_order c s lines :
  proc s = Running → reader s = RdRead true →
  run c s (map (λ line, ReadLineResult (Ok line)) lines) =
    does TReader (map (λ line, Print (line +:+ LF)) lines) s.
Proof.
  revert s. induction lines as [|line lines IH]; intros s Hp Hr.
  - destruct s. unfold run, does. simpl. rewrite app_nil_r. reflexivity.
  - assert (step c s (ReadLineResult (Ok line)) =
            does TReader [Print (line +:+ LF)] s) as Hstep.
    { destruct s. simpl in *. subst. done. }
    unfold run in *. simpl. rewrite Hstep.
    rewrite IH by (by destruct s). destruct s. simpl in *.
    unfold does. simpl. by rewrite <-app_assoc.
Qed.

(** X16 at work on two lines. *)
Lemma reader_prints_lines_in_order_witness :
  run (Sample.config None) (Sample.established None)
    (map (λ line, ReadLineResult (Ok line)) ["one"; "two"]) =
    does TReader [Print ("one" +:+ LF); Print ("two" +:+ LF)]
      (Sample.established None).
Proof.
  apply (reader_prints_lines_in_order (Sample.config None)
           (Sample.established None) ["one"; "two"]); reflexivity.
Defined.
